(** * Deutsch-Jozsa with Qiskit: a shallow embedding of [djalgorithm.py]

    The Python module builds oracles and the Deutsch-Jozsa circuit through
    Qiskit's [QuantumCircuit] objects, runs the circuit on a simulator and
    reads the verdict off the dictionary of counts.  The embedding keeps the
    shape of the program: Python objects live in a store and are mutated
    through references, the global random generator is part of the state,
    and exceptions are an error result. *)

From Stdlib Require Import ZArith Lia String Ascii List Bool.
From stdpp Require Import base gmap list strings.

Local Open Scope Z_scope.

(** ** Python values and effects *)

Module Py.

(** Exceptions the program can meet: numpy's [ValueError], Qiskit's
    [CircuitError], Python's [OverflowError], and a reference to an object
    that is not in the store (which Python itself never produces). *)
Inductive error := ValueError | CircuitError | ReferenceError | OverflowError.

Inductive result (A : Type) : Type :=
| Ok (a : A)
| Err (e : error).
Global Arguments Ok {A} a.
Global Arguments Err {A} e.

(** [range(k)] *)
Definition range (k : Z) : list Z := Z.of_nat <$> seq 0 (Z.to_nat k).

(** [enumerate(l)] *)
Definition enumerate {A} (l : list A) : list (Z * A) :=
  imap (fun i a => (Z.of_nat i, a)) l.

(** iteration over a [str], and [reversed(...)] of it *)
Definition chars (s : string) : list ascii := list_ascii_of_string s.
Definition reversed {A} (l : list A) : list A := reverse l.

(** [s * k] for a string [s] *)
Definition str_mul (s : string) (k : Z) : string :=
  Nat.iter (Z.to_nat k) (String.append s) EmptyString.

(** The least integer that [float] does not convert: it rounds to
    [2^1024], beyond the largest double. *)
Definition float_limit : Z := 2 ^ 1024 - 2 ^ 970.

(** [2 ** n], as [np.random.randint] reads it when it is given as a
    bound.  For [n >= 0] it is the integer [2^n].  For a negative [n]
    Python computes [float(2) ** float(n)]: the conversion of [n] raises
    [OverflowError] from [float_limit] on in magnitude, and otherwise the
    result is a float of [[0, 1)], which [randint] truncates to 0. *)
Definition pow2 (n : Z) : result Z :=
  if decide (0 <= n) then Ok (2 ^ n)
  else if decide (- float_limit < n) then Ok 0
  else Err OverflowError.

(** Binary digits of a positive number, most significant first. *)
Fixpoint bin_digits (p : positive) : list ascii :=
  match p with
  | xH => ["1"%char]
  | xO p' => bin_digits p' ++ ["0"%char]
  | xI p' => bin_digits p' ++ ["1"%char]
  end.

(** [format(x, "0" + str(width) + "b")]: binary, zero-filled to [width]
    (the fill goes after the sign). *)
Definition format_b (x : Z) (width : Z) : string :=
  let fill (sign digits : list ascii) :=
    sign ++ replicate (Z.to_nat width - length sign - length digits)%nat "0"%char
         ++ digits in
  string_of_list_ascii
    match x with
    | Z0 => fill [] ["0"%char]
    | Zpos p => fill [] (bin_digits p)
    | Zneg p => fill ["-"%char] (bin_digits p)
    end.

End Py.
Export Py.

(** ** Qiskit circuits *)

Module Qiskit.

(** Primitive operations, on resolved (non-negative) wire indices. *)
Inductive gate :=
| GX (q : Z)
| GH (q : Z)
| GCX (c t : Z)
| GBarrier (qs : list Z)
| GMeasure (q c : Z).

(** An entry of a circuit's [data]: a primitive, or an instruction made
    by [to_instruction] and placed by [append] on the wires [qargs] and
    classical bits [cargs].  The entry holds the definition the
    instruction has when it is appended; the program never changes an
    instruction after that. *)
#[warnings="-register-all"]
Inductive Op :=
| Prim (g : gate)
| Composite (name : string) (nq nc : Z) (definition : list Op)
            (qargs cargs : list Z).

(** A [QuantumCircuit]; an [Instruction] obtained from one carries the
    same four attributes ([data] is its [definition]). *)
Record QuantumCircuit := mkQC {
  name : string;
  num_qubits : Z;
  num_clbits : Z;
  data : list Op
}.

Global Instance gate_eq_dec : EqDecision gate.
Proof. solve_decision. Defined.

Definition loc := positive.

(** The state of the interpreter: the object store and numpy's global
    generator, seen as the stream of raw values it will produce. *)
Record world := World {
  heap : gmap loc QuantumCircuit;
  entropy : nat -> Z
}.

Definition M (A : Type) : Type := world -> result (A * world).

Definition ret {A} (a : A) : M A := fun w => Ok (a, w).
Definition bind {A B} (m : M A) (k : A -> M B) : M B :=
  fun w => match m w with
           | Ok (a, w') => k a w'
           | Err e => Err e
           end.
Definition raise {A} (e : error) : M A := fun _ => Err e.

(** A computation without effects, which may raise. *)
Definition lift {A} (r : result A) : M A :=
  fun w => match r with
           | Ok a => Ok (a, w)
           | Err e => Err e
           end.

End Qiskit.
Export Qiskit.

Notation "x <- m ;; k" := (bind m (fun x => k))
  (at level 100, m at next level, right associativity).
Notation "m ;;; k" := (bind m (fun _ => k))
  (at level 100, right associativity).

Module Numpy.

(** [np.random.randint(low, high)], of the default type [int64]: an
    integer of [[low, high)].  numpy raises [ValueError] when [low] is
    below [-2^63], when [high - 1] is above [2^63 - 1], and when the range
    is empty, in this order.  The raw value consumed from the generator is
    reduced into the range. *)
Definition randint (low high : Z) : M Z :=
  fun w =>
    if decide (low < - 2 ^ 63) then Err ValueError
    else if decide (2 ^ 63 - 1 < high - 1) then Err ValueError
    else if decide (low < high)
    then Ok (low + entropy w 0%nat `mod` (high - low),
             World (heap w) (fun k => entropy w (S k)))
    else Err ValueError.

End Numpy.

Module QC.

Definition alloc (o : QuantumCircuit) : M loc :=
  fun w => let l := fresh (dom (heap w)) in
           Ok (l, World (<[l := o]> (heap w)) (entropy w)).

Definition load (l : loc) : M QuantumCircuit :=
  fun w => match heap w !! l with
           | Some o => Ok (o, w)
           | None => Err ReferenceError
           end.

Definition store (l : loc) (o : QuantumCircuit) : M unit :=
  fun w => Ok (tt, World (<[l := o]> (heap w)) (entropy w)).

(** [QuantumCircuit(nq, nc)]; negative sizes are rejected.  Qiskit
    numbers the default names, which nothing here reads. *)
Definition new (nq nc : Z) : M loc :=
  if decide (0 <= nq /\ 0 <= nc)
  then alloc (mkQC "circuit" nq nc [])
  else raise CircuitError.

(** Resolution of a bit index against [size] bits, as Python indexes a
    list: negative indices count from the end. *)
Definition index (size i : Z) : M Z :=
  if decide (0 <= i < size) then ret i
  else if decide (- size <= i < 0) then ret (size + i)
  else raise CircuitError.

Definition push (o : QuantumCircuit) (op : Op) : QuantumCircuit :=
  mkQC (name o) (num_qubits o) (num_clbits o) (data o ++ [op]).

(** [circuit.x(q)] *)
Definition x (c : loc) (q : Z) : M unit :=
  o <- load c ;;
  q' <- index (num_qubits o) q ;;
  store c (push o (Prim (GX q'))).

(** [circuit.h(q)] *)
Definition h (c : loc) (q : Z) : M unit :=
  o <- load c ;;
  q' <- index (num_qubits o) q ;;
  store c (push o (Prim (GH q'))).

(** [circuit.cx(control, target)] *)
Definition cx (c : loc) (control target : Z) : M unit :=
  o <- load c ;;
  c' <- index (num_qubits o) control ;;
  t' <- index (num_qubits o) target ;;
  if decide (c' = t') then raise CircuitError
  else store c (push o (Prim (GCX c' t'))).

(** [circuit.barrier()]: over all the wires *)
Definition barrier (c : loc) : M unit :=
  o <- load c ;;
  store c (push o (Prim (GBarrier (range (num_qubits o))))).

(** [circuit.measure(q, cbit)] *)
Definition measure (c : loc) (q cbit : Z) : M unit :=
  o <- load c ;;
  q' <- index (num_qubits o) q ;;
  c' <- index (num_clbits o) cbit ;;
  store c (push o (Prim (GMeasure q' c'))).

(** [circuit.to_instruction()]: a new object with the circuit's
    attributes and a copy of its operations. *)
Definition to_instruction (c : loc) : M loc :=
  o <- load c ;;
  alloc (mkQC (name o) (num_qubits o) (num_clbits o) (data o)).

(** [inst.name = s] *)
Definition set_name (i : loc) (s : string) : M unit :=
  o <- load i ;;
  store i (mkQC s (num_qubits o) (num_clbits o) (data o)).

Fixpoint indices (size : Z) (l : list Z) : M (list Z) :=
  match l with
  | [] => ret []
  | i :: l' => i' <- index size i ;; r <- indices size l' ;; ret (i' :: r)
  end.

(** [circuit.append(inst, qargs, cargs)]: the argument counts must be
    those of the instruction and every index must exist in the circuit. *)
Definition append (c inst : loc) (qargs cargs : list Z) : M unit :=
  o <- load c ;;
  i <- load inst ;;
  if decide (Z.of_nat (length qargs) = num_qubits i
             /\ Z.of_nat (length cargs) = num_clbits i)
  then
    qs <- indices (num_qubits o) qargs ;;
    cs <- indices (num_clbits o) cargs ;;
    store c (push o (Composite (name i) (num_qubits i) (num_clbits i)
                               (data i) qs cs))
  else raise CircuitError.

(** A Python [for] loop whose body only has effects. *)
Fixpoint for_each {A} (l : list A) (body : A -> M unit) : M unit :=
  match l with
  | [] => ret tt
  | a :: l' => body a ;;; for_each l' body
  end.

End QC.

(** ** The program: [class DJAlgorithm] *)

Module DJAlgorithm.

Definition give_a_balanced_oracle (inputs_count : Z) : M loc :=
  high <- lift (pow2 inputs_count) ;;
  random_number <- Numpy.randint 1 high ;;
  let inputs := chars (format_b random_number inputs_count) in
  oracle <- QC.new (inputs_count + 1) inputs_count ;;
  QC.for_each (enumerate (reversed inputs))
    (fun '(index, qubit) =>
       if decide (qubit = "1"%char) then QC.x oracle index else ret tt) ;;;
  QC.for_each (enumerate inputs)
    (fun '(index, qubit) => QC.cx oracle index inputs_count) ;;;
  QC.for_each (enumerate (reversed inputs))
    (fun '(index, qubit) =>
       if decide (qubit = "1"%char) then QC.x oracle index else ret tt) ;;;
  inst <- QC.to_instruction oracle ;;
  QC.set_name inst "BalancedOracle" ;;;
  ret inst.

Definition give_a_constant_oracle (inputs_count : Z) : M loc :=
  oracle <- QC.new (inputs_count + 1) 0 ;;
  coin <- Numpy.randint 0 2 ;;
  (if decide (coin = 1) then QC.x oracle inputs_count else ret tt) ;;;
  inst <- QC.to_instruction oracle ;;
  QC.set_name inst "ConstantOracle" ;;;
  ret inst.

Definition _construct_the_circuit (oracle_block : loc) : M loc :=
  ob <- QC.load oracle_block ;;
  let input_length := num_qubits ob - 1 in
  _circuit <- QC.new (input_length + 1) input_length ;;
  QC.for_each (range input_length) (fun qubit => QC.h _circuit qubit) ;;;
  QC.x _circuit input_length ;;;
  QC.h _circuit input_length ;;;
  QC.barrier _circuit ;;;
  QC.append _circuit oracle_block
    (range (num_qubits ob)) (range (num_clbits ob)) ;;;
  QC.barrier _circuit ;;;
  QC.for_each (range input_length) (fun qubit => QC.h _circuit qubit) ;;;
  QC.barrier _circuit ;;;
  QC.for_each (range input_length)
    (fun qubit => QC.measure _circuit qubit qubit) ;;;
  ret _circuit.

(** Lines 28-31 of [simulate]: the verdict read off the counts. *)
Definition verdict (circuit_num_qubits : Z) (answer : gmap string nat)
  : gmap string string :=
  if decide (str_mul "0" (circuit_num_qubits - 1) ∈ dom answer)
  then {[ "result" := "Constant" ]}
  else {[ "result" := "Balanced" ]}.

(** [simulate]; [run] is the backend: transpilation, assembly and the
    simulator's run, from the circuit to the dictionary of counts. *)
Definition simulate (run : QuantumCircuit -> gmap string nat)
    (oracle_block : loc) : M (gmap string string) :=
  circuit <- _construct_the_circuit oracle_block ;;
  c <- QC.load circuit ;;
  let answer := run c in
  ret (verdict (num_qubits c) answer).

End DJAlgorithm.
Import DJAlgorithm.

(** ** The ideal backend

    A noiseless execution of a circuit over the gates the program uses.
    Every matrix involved has real entries and the only irrational factor is
    the [1/sqrt 2] of a Hadamard gate, so amplitudes are kept as integers, up
    to a common positive factor: an outcome has non-zero probability exactly
    when its unnormalised weight is non-zero.  A basis state is the integer
    whose bit [q] is the value of wire [q]. *)

Module Backend.

Definition statevec := Z -> Z.

Definition init_state : statevec := fun i => if decide (i = 0) then 1 else 0.

Definition basis (nq : Z) : list Z := range (2 ^ nq).

Definition apply_x (q : Z) (psi : statevec) : statevec :=
  fun i => psi (Z.lxor i (2 ^ q)).

Definition apply_h (q : Z) (psi : statevec) : statevec :=
  fun i => if Z.testbit i q
           then psi (Z.clearbit i q) - psi i
           else psi i + psi (Z.setbit i q).

Definition apply_cx (c t : Z) (psi : statevec) : statevec :=
  fun i => if Z.testbit i c then psi (Z.lxor i (2 ^ t)) else psi i.

(** Unnormalised probability of reading [a] on wire [q]. *)
Definition weight (nq : Z) (psi : statevec) (q : Z) (a : bool) : Z :=
  foldr Z.add 0
    ((fun i => if decide (Z.testbit i q = a) then psi i * psi i else 0)
       <$> basis nq).

Definition collapse (q : Z) (a : bool) (psi : statevec) : statevec :=
  fun i => if decide (Z.testbit i q = a) then psi i else 0.

(** A configuration: the state vector and the classical register. *)
Definition config := (statevec * list bool)%type.

Definition measure_as (nq q c : Z) (a : bool) (cf : config) : list config :=
  if decide (weight nq cf.1 q a = 0) then []
  else [(collapse q a cf.1, <[Z.to_nat c := a]> cf.2)].

(** One gate, from one configuration to the configurations that follow
    it with non-zero probability. *)
Definition exec_gate (nq : Z) (g : gate) (cf : config) : list config :=
  match g with
  | GX q => [(apply_x q cf.1, cf.2)]
  | GH q => [(apply_h q cf.1, cf.2)]
  | GCX c t => [(apply_cx c t cf.1, cf.2)]
  | GBarrier _ => [cf]
  | GMeasure q c => measure_as nq q c false cf ++ measure_as nq q c true cf
  end.

Definition exec (nq : Z) (gs : list gate) (cfs : list config) : list config :=
  foldl (fun cfs g => flat_map (exec_gate nq g) cfs) cfs gs.

(** A gate of an instruction's definition, on the wires and classical
    bits the instruction was appended to. *)
Definition remap (qargs cargs : list Z) (g : gate) : gate :=
  let qa q := qargs !!! Z.to_nat q in
  let ca c := cargs !!! Z.to_nat c in
  match g with
  | GX q => GX (qa q)
  | GH q => GH (qa q)
  | GCX c t => GCX (qa c) (qa t)
  | GBarrier qs => GBarrier (qa <$> qs)
  | GMeasure q c => GMeasure (qa q) (ca c)
  end.

(** The primitive gates of a circuit, instructions replaced by their
    definitions (what transpilation to the simulator does). *)
Fixpoint unroll_op (o : Op) : list gate :=
  match o with
  | Prim g => [g]
  | Composite _ _ _ d qargs cargs => remap qargs cargs <$> flat_map unroll_op d
  end.

Definition unroll (d : list Op) : list gate := flat_map unroll_op d.

Definition bitchar (b : bool) : ascii := if b then "1"%char else "0"%char.

(** A key of [get_counts()]: classical bit 0 is the rightmost character. *)
Definition key_of (creg : list bool) : string :=
  string_of_list_ascii (reverse (bitchar <$> creg)).

(** The keys an ideal execution of the circuit can produce. *)
Definition ideal_outcomes (c : QuantumCircuit) : list string :=
  (fun cf : config => key_of cf.2)
    <$> exec (num_qubits c) (unroll (data c))
             [(init_state, replicate (Z.to_nat (num_clbits c)) false)].

(** A backend is ideal when the counts it returns hold only keys of
    non-zero probability, and hold one whenever there is one (it runs at
    least one shot). *)
Definition ideal (run : QuantumCircuit -> gmap string nat) : Prop :=
  forall c, (forall key, key ∈ dom (run c) -> key ∈ ideal_outcomes c)
            /\ (ideal_outcomes c <> [] -> run c <> ∅).

(** An ideal backend that reports every possible key once. *)
Definition ideal_run (c : QuantumCircuit) : gmap string nat :=
  list_to_map ((fun k => (k, 1%nat)) <$> ideal_outcomes c).

(** The classical action of a reversible gate on a basis state. *)
Definition classical_gate (g : gate) (i : Z) : option Z :=
  match g with
  | GX q => Some (Z.lxor i (2 ^ q))
  | GCX c t => Some (if Z.testbit i c then Z.lxor i (2 ^ t) else i)
  | GBarrier _ => Some i
  | GH _ | GMeasure _ _ => None
  end.

Fixpoint classical_run (gs : list gate) (i : Z) : option Z :=
  match gs with
  | [] => Some i
  | g :: gs' => match classical_gate g i with
                | Some j => classical_run gs' j
                | None => None
                end
  end.

(** The boolean function an oracle computes: the ancilla (the last
    wire, initially 0) after the oracle ran on the input [x]. *)
Definition oracle_function (o : QuantumCircuit) (x : Z) : option bool :=
  match classical_run (unroll (data o)) x with
  | Some j => Some (Z.testbit j (num_qubits o - 1))
  | None => None
  end.

End Backend.
Import Backend.

(** ** Auxiliary definitions for the proofs *)

Module Aux.

(** The operations [_construct_the_circuit] puts around an oracle [ob]. *)
Definition dj_data (ob : QuantumCircuit) : list Op :=
  let n := num_qubits ob - 1 in
  ((fun q => Prim (GH q)) <$> range n)
  ++ [Prim (GX n); Prim (GH n); Prim (GBarrier (range (n + 1)))]
  ++ [Composite (name ob) (num_qubits ob) (num_clbits ob) (data ob)
                (range (num_qubits ob)) (range (num_clbits ob))]
  ++ [Prim (GBarrier (range (n + 1)))]
  ++ ((fun q => Prim (GH q)) <$> range n)
  ++ [Prim (GBarrier (range (n + 1)))]
  ++ ((fun q => Prim (GMeasure q q)) <$> range n).

Definition dj_circuit (ob : QuantumCircuit) : QuantumCircuit :=
  mkQC "circuit" (num_qubits ob) (num_qubits ob - 1) (dj_data ob).

(** The operations of the balanced oracle drawn with the mask [m]. *)
Definition mask_flips (n m : Z) : list Op :=
  (fun i => Prim (GX i)) <$> filter (fun i => Z.testbit m i = true) (range n).

Definition balanced_data (n m : Z) : list Op :=
  mask_flips n m ++ ((fun i => Prim (GCX i n)) <$> range n) ++ mask_flips n m.

(** The operations of the constant oracle drawn with the coin [coin]. *)
Definition constant_data (n coin : Z) : list Op :=
  if decide (coin = 1) then [Prim (GX n)] else [].

(** The generator after one draw. *)
Definition drawn (e : nat -> Z) : nat -> Z := fun k => e (S k).

(** The store after an oracle was built as a circuit and turned into an
    instruction called [nm]. *)
Definition oracle_heap (h : gmap loc QuantumCircuit) (nm : string)
    (nq nc : Z) (d : list Op) : gmap loc QuantumCircuit :=
  let c := fresh (dom h) in
  let h' := <[c := mkQC "circuit" nq nc d]> h in
  <[fresh (dom h') := mkQC nm nq nc d]> h'.

Definition oracle_loc (h : gmap loc QuantumCircuit)
    (nq nc : Z) (d : list Op) : loc :=
  fresh (dom (<[fresh (dom h) := mkQC "circuit" nq nc d]> h)).

(** The world in which the circuit at [c] holds the operations [d]. *)
Definition at_c (h0 : gmap loc QuantumCircuit) (e0 : nat -> Z) (c : loc)
    (nm : string) (nq nc : Z) (d : list Op) : world :=
  World (<[c := mkQC nm nq nc d]> h0) e0.

(** *** Product states

    A wire in a product state carries a pair: its amplitude on 0 and its
    amplitude on 1.  The amplitude of a basis state is the product of the
    amplitudes its bits select. *)
Abbreviation wire := (Z * Z)%type.

Definition sel (w : wire) (b : bool) : Z := if b then w.2 else w.1.

Fixpoint product_from (k : Z) (ws : list wire) (i : Z) : Z :=
  match ws with
  | [] => 1
  | w :: ws' => sel w (Z.testbit i k) * product_from (k + 1) ws' i
  end.

Definition product_state (ws : list wire) : statevec := product_from 0 ws.

Definition swap (w : wire) : wire := (w.2, w.1).
Definition hadamard (w : wire) : wire := (w.1 + w.2, w.1 - w.2).
Definition kick (w : wire) : wire := (w.1, - w.2).

(** A control kicks its phase back when the target is in a state
    [(a, -a)]. *)
Definition minus_like (ws : list wire) (t : Z) : Prop :=
  match ws !! Z.to_nat t with
  | Some w => w.1 + w.2 = 0
  | None => False
  end.

Global Instance minus_like_dec ws t : Decision (minus_like ws t).
Proof. unfold minus_like. destruct (ws !! Z.to_nat t); apply _. Defined.

(** The gate on the wires of a product state, when the result is again
    a product state. *)
Definition wire_step (g : gate) (ws : list wire) : option (list wire) :=
  let n := Z.of_nat (length ws) in
  match g with
  | GX q => if decide (0 <= q < n)
            then Some (alter swap (Z.to_nat q) ws) else None
  | GH q => if decide (0 <= q < n)
            then Some (alter hadamard (Z.to_nat q) ws) else None
  | GCX c t => if decide (0 <= c < n /\ 0 <= t < n /\ c <> t /\ minus_like ws t)
               then Some (alter kick (Z.to_nat c) ws) else None
  | GBarrier _ => Some ws
  | GMeasure _ _ => None
  end.

Fixpoint wire_run (gs : list gate) (ws : list wire) : option (list wire) :=
  match gs with
  | [] => Some ws
  | g :: gs' => match wire_step g ws with
                | Some ws' => wire_run gs' ws'
                | None => None
                end
  end.

(** The action of a gate on the state vector (a measurement is not
    one: [exec_gate] branches on it). *)
Definition unitary (g : gate) (psi : statevec) : statevec :=
  match g with
  | GX q => apply_x q psi
  | GH q => apply_h q psi
  | GCX c t => apply_cx c t psi
  | GBarrier _ | GMeasure _ _ => psi
  end.

Definition is_measure (g : gate) : bool :=
  match g with GMeasure _ _ => true | _ => false end.

(** A gate whose wires and classical bits exist among [nq] wires and
    [nc] classical bits. *)
Definition wf_gate (nq nc : Z) (g : gate) : Prop :=
  match g with
  | GX q | GH q => 0 <= q < nq
  | GCX c t => 0 <= c < nq /\ 0 <= t < nq
  | GBarrier qs => Forall (fun q => 0 <= q < nq) qs
  | GMeasure q c => 0 <= q < nq /\ 0 <= c < nc
  end.

(** The gates of the composed circuit, around the gates [og] of the
    oracle. *)
Definition dj_gates (n : Z) (og : list gate) : list gate :=
  (GH <$> range n)
  ++ [GX n; GH n; GBarrier (range (n + 1))]
  ++ og
  ++ [GBarrier (range (n + 1))]
  ++ (GH <$> range n)
  ++ [GBarrier (range (n + 1))]
  ++ ((fun q => GMeasure q q) <$> range n).

(** *** Reading results *)

Definition fails {A} (r : result A) : Prop := exists e, r = Err e.

(** The object a builder returns, read in the store it leaves. *)
Definition the_object (r : result (loc * world)) : option QuantumCircuit :=
  match r with
  | Ok (l, w) => heap w !! l
  | Err _ => None
  end.

(** The mask [give_a_balanced_oracle n] draws in the world [w]. *)
Definition drawn_mask (n : Z) (w : world) : Z :=
  1 + entropy w 0%nat `mod` (2 ^ n - 1).

(** The parity of the [n] low bits of [x] (of its popcount). *)
Definition parity (n x : Z) : bool :=
  foldl xorb false (Z.testbit x <$> range n).

(** The reading of the balanced synthesizer in which a controlled flip
    is placed for the mask bits that are 1, and for those only. *)
Definition cx_only_on_mask (n m : Z) (gs : list gate) : Prop :=
  forall i, 0 <= i < n -> (GCX i n ∈ gs <-> Z.testbit m i = true).

(** The reading of a claim in which the balanced synthesizer returns an
    oracle for the given number of inputs. *)
Definition synthesizes (n : Z) (w : world) : Prop :=
  exists ob, the_object (give_a_balanced_oracle n w) = Some ob.

(** The reading in which the synthesizer draws a mask of [[1, 2^n - 1]]. *)
Definition draws_mask (n : Z) (w : world) : Prop :=
  exists m w',
    (high <- lift (pow2 n) ;; Numpy.randint 1 high) w = Ok (m, w')
    /\ 1 <= m <= 2 ^ n - 1.

(** Equality of state vectors on the basis states of [nq] wires. *)
Definition same_on (nq : Z) (psi phi : statevec) : Prop :=
  forall i, 0 <= i < 2 ^ nq -> psi i = phi i.

End Aux.
Import Aux.

(** ** The command line: the [__main__] block *)

Module CLI.

(** [str.lower()], on the letters A-Z.  Of the characters outside ASCII
    none lowers to a string of the letters the program compares with, so
    the comparisons below decide as Python's do. *)
Definition lower_char (c : ascii) : ascii :=
  let k := nat_of_ascii c in
  if ((65 <=? k) && (k <=? 90))%nat then ascii_of_nat (k + 32) else c.

Fixpoint lower (s : string) : string :=
  match s with
  | EmptyString => EmptyString
  | String c s' => String (lower_char c) (lower s')
  end.

(** How the script ends: normally, by [exit(status)], or by an exception
    nobody catches (of the builders, or the [KeyError] of a dictionary). *)
Inductive termination :=
| Finished
| Exited (status : Z)
| Uncaught (e : error)
| UncaughtKeyError (key : string).

Definition banner : list string :=
  [ "===================================";
    "Deutsch-Jozsa Algorithm Simulation";
    "===================================" ].

(** The script, from the two answers read on the prompts: the number
    [int] made of the first and the text of the second.  The result is
    the lines [print] wrote and the way the script ended. *)
Definition main (run : QuantumCircuit -> gmap string nat)
    (inputs_count : Z) (oracle_type : string) (w : world)
  : list string * termination :=
  let oracle_type := lower oracle_type in
  let block_to_test :=
    if decide (oracle_type = "constant" \/ oracle_type = "c")
    then Some (give_a_constant_oracle inputs_count)
    else if decide (oracle_type = "balanced" \/ oracle_type = "b")
    then Some (give_a_balanced_oracle inputs_count)
    else None in
  match block_to_test with
  | None => (banner ++ ["Invalid oracle type."], Exited 1)
  | Some build =>
      match (block <- build ;; simulate run block) w with
      | Err e => (banner, Uncaught e)
      | Ok (result, _) =>
          match result !! "result" with
          | Some v => (banner ++ [String.append "Result: " v], Finished)
          | None => (banner, UncaughtKeyError "result")
          end
      end
  end.

End CLI.
Import CLI.

(** ** Further definitions for the proofs *)

Module Counting.

(** The number of the [2^n] inputs on which an oracle answers 1. *)
Definition ones_count (o : QuantumCircuit) (n : Z) : nat :=
  length (filter (fun x => oracle_function o x = Some true) (range (2 ^ n))).

(** The number of [k]-bit inputs of parity [b]. *)
Definition parity_count (k : nat) (b : bool) : nat :=
  length (filter (fun x => parity (Z.of_nat k) x = b)
                 (range (2 ^ Z.of_nat k))).

(** The basis state with the inputs [x] (below [2^n]) and the ancilla,
    wire [n], at [a]. *)
Definition basis_state (n x : Z) (a : bool) : Z :=
  if a then Z.setbit x n else x.

(** A builder that, run in [w], returns an object that was not in the
    store and leaves every object of [w] as it was. *)
Definition builds_apart (r : result (loc * world)) (w : world) : Prop :=
  exists inst w',
    r = Ok (inst, w')
    /\ heap w !! inst = None
    /\ (forall l o, heap w !! l = Some o -> heap w' !! l = Some o).

(** The tokens the script accepts, after lowering. *)
Definition constant_token (t : string) : Prop :=
  lower t = "constant" \/ lower t = "c".

Definition balanced_token (t : string) : Prop :=
  lower t = "balanced" \/ lower t = "b".

End Counting.
Import Counting.

(** * Proofs *)

(** ** The program on small inputs *)

Example constant_oracle_two_inputs :
  the_object (give_a_constant_oracle 2 (World ∅ (fun _ => 1)))
  = Some (mkQC "ConstantOracle" 3 0 [Prim (GX 2)]).
Proof. vm_compute. reflexivity. Qed.

Example balanced_oracle_mask_10 :
  the_object (give_a_balanced_oracle 2 (World ∅ (fun _ => 1)))
  = Some (mkQC "BalancedOracle" 3 2
            [Prim (GX 1); Prim (GCX 0 2); Prim (GCX 1 2); Prim (GX 1)]).
Proof. vm_compute. reflexivity. Qed.

Example balanced_oracle_mask_101 :
  the_object (give_a_balanced_oracle 3 (World ∅ (fun _ => 4)))
  = Some (mkQC "BalancedOracle" 4 3
            [Prim (GX 0); Prim (GX 2);
             Prim (GCX 0 3); Prim (GCX 1 3); Prim (GCX 2 3);
             Prim (GX 0); Prim (GX 2)]).
Proof. vm_compute. reflexivity. Qed.

Example constant_outcomes_two_inputs :
  ideal_outcomes (dj_circuit (mkQC "ConstantOracle" 3 0 [Prim (GX 2)])) = ["00"].
Proof. vm_compute. reflexivity. Qed.

Example balanced_outcomes_mask_10 :
  ideal_outcomes
    (dj_circuit (mkQC "BalancedOracle" 3 2
                   [Prim (GX 1); Prim (GCX 0 2); Prim (GCX 1 2); Prim (GX 1)]))
  = ["11"].
Proof. vm_compute. reflexivity. Qed.

(** A circuit that is not the algorithm's: one Hadamard gate, then a
    measurement, has both outcomes. *)
Example hadamard_outcomes :
  ideal_outcomes (mkQC "circuit" 1 1 [Prim (GH 0); Prim (GMeasure 0 0)])
  = ["0"; "1"].
Proof. vm_compute. reflexivity. Qed.

Example format_b_5_in_4 : format_b 5 4 = "0101".
Proof. reflexivity. Qed.

Example constant_oracle_fails_below :
  give_a_constant_oracle (-2) (World ∅ (fun _ => 0)) = Err CircuitError.
Proof. reflexivity. Qed.

(** ** Running the monad *)

Section Running.

Context {A B : Type}.

Lemma bind_ok (m : M A) (k : A -> M B) w a w' :
  m w = Ok (a, w') -> bind m k w = k a w'.
Proof. intros E. unfold bind. by rewrite E. Qed.

Lemma bind_err (m : M A) (k : A -> M B) w e :
  m w = Err e -> bind m k w = Err e.
Proof. intros E. unfold bind. by rewrite E. Qed.

End Running.

Section Store.

Variables (h0 : gmap loc QuantumCircuit) (e0 : nat -> Z) (c : loc).
Variables (nm : string) (nq nc : Z).

Lemma load_at_c d :
  QC.load c (at_c h0 e0 c nm nq nc d)
  = Ok (mkQC nm nq nc d, at_c h0 e0 c nm nq nc d).
Proof. unfold QC.load, at_c; simpl. by rewrite lookup_insert_eq. Qed.

Lemma store_at_c d o :
  QC.store c o (at_c h0 e0 c nm nq nc d) = Ok (tt, World (<[c := o]> h0) e0).
Proof. unfold QC.store, at_c; simpl. by rewrite insert_insert_eq. Qed.

Lemma index_ok size i w : 0 <= i < size -> QC.index size i w = Ok (i, w).
Proof. intros Hi. unfold QC.index. by rewrite decide_True. Qed.

Lemma indices_ok size l w :
  Forall (fun i => 0 <= i < size) l -> QC.indices size l w = Ok (l, w).
Proof.
  induction 1 as [|i l Hi _ IH]; simpl; [done|].
  rewrite (bind_ok _ _ _ _ _ (index_ok _ _ _ Hi)).
  by rewrite (bind_ok _ _ _ _ _ IH).
Qed.

Lemma x_at_c d q :
  0 <= q < nq ->
  QC.x c q (at_c h0 e0 c nm nq nc d)
  = Ok (tt, at_c h0 e0 c nm nq nc (d ++ [Prim (GX q)])).
Proof.
  intros Hq. unfold QC.x.
  rewrite (bind_ok _ _ _ _ _ (load_at_c d)); simpl.
  rewrite (bind_ok _ _ _ _ _ (index_ok _ _ _ Hq)).
  by rewrite store_at_c.
Qed.

Lemma h_at_c d q :
  0 <= q < nq ->
  QC.h c q (at_c h0 e0 c nm nq nc d)
  = Ok (tt, at_c h0 e0 c nm nq nc (d ++ [Prim (GH q)])).
Proof.
  intros Hq. unfold QC.h.
  rewrite (bind_ok _ _ _ _ _ (load_at_c d)); simpl.
  rewrite (bind_ok _ _ _ _ _ (index_ok _ _ _ Hq)).
  by rewrite store_at_c.
Qed.

Lemma cx_at_c d q t :
  0 <= q < nq -> 0 <= t < nq -> q <> t ->
  QC.cx c q t (at_c h0 e0 c nm nq nc d)
  = Ok (tt, at_c h0 e0 c nm nq nc (d ++ [Prim (GCX q t)])).
Proof.
  intros Hq Ht Hne. unfold QC.cx.
  rewrite (bind_ok _ _ _ _ _ (load_at_c d)); simpl.
  rewrite (bind_ok _ _ _ _ _ (index_ok _ _ _ Hq)).
  rewrite (bind_ok _ _ _ _ _ (index_ok _ _ _ Ht)).
  rewrite decide_False by done.
  by rewrite store_at_c.
Qed.

Lemma measure_at_c d q b :
  0 <= q < nq -> 0 <= b < nc ->
  QC.measure c q b (at_c h0 e0 c nm nq nc d)
  = Ok (tt, at_c h0 e0 c nm nq nc (d ++ [Prim (GMeasure q b)])).
Proof.
  intros Hq Hb. unfold QC.measure.
  rewrite (bind_ok _ _ _ _ _ (load_at_c d)); simpl.
  rewrite (bind_ok _ _ _ _ _ (index_ok _ _ _ Hq)).
  rewrite (bind_ok _ _ _ _ _ (index_ok _ _ _ Hb)).
  by rewrite store_at_c.
Qed.

Lemma barrier_at_c d :
  QC.barrier c (at_c h0 e0 c nm nq nc d)
  = Ok (tt, at_c h0 e0 c nm nq nc (d ++ [Prim (GBarrier (range nq))])).
Proof.
  unfold QC.barrier.
  rewrite (bind_ok _ _ _ _ _ (load_at_c d)); simpl.
  by rewrite store_at_c.
Qed.

(** A loop whose every turn appends operations to the circuit at [c]. *)
Lemma for_each_at_c {T} (l : list T) (body : T -> M unit) (ops : T -> list Op) :
  (forall a d, a ∈ l ->
     body a (at_c h0 e0 c nm nq nc d)
     = Ok (tt, at_c h0 e0 c nm nq nc (d ++ ops a))) ->
  forall d,
    QC.for_each l body (at_c h0 e0 c nm nq nc d)
    = Ok (tt, at_c h0 e0 c nm nq nc (d ++ concat (ops <$> l))).
Proof.
  induction l as [|a l IH]; intros Hbody d; simpl.
  - by rewrite app_nil_r.
  - rewrite (bind_ok _ _ _ _ _ (Hbody a d (list_elem_of_here _ _))).
    rewrite IH by (intros; apply Hbody; by apply list_elem_of_further).
    by rewrite <- app_assoc.
Qed.

End Store.

Lemma elem_of_range k i : i ∈ range k <-> 0 <= i < k.
Proof.
  unfold range. rewrite list_elem_of_fmap. split.
  - intros (j & -> & Hj). apply elem_of_seq in Hj. lia.
  - intros Hi. exists (Z.to_nat i). split; [lia|]. apply elem_of_seq. lia.
Qed.

Lemma concat_singletons {T U} (f : T -> U) (l : list T) :
  concat ((fun a => [f a]) <$> l) = f <$> l.
Proof. induction l; simpl; by f_equal. Qed.

Lemma length_range k : 0 <= k -> Z.of_nat (length (range k)) = k.
Proof. intros Hk. unfold range. rewrite length_fmap, length_seq. lia. Qed.

Lemma Forall_range k : Forall (fun i => 0 <= i < k) (range k).
Proof. apply Forall_forall. intros i. apply elem_of_range. Qed.

(** ** What the three builders leave in the store *)

Lemma construct_the_circuit_runs w oracle_block ob :
  heap w !! oracle_block = Some ob ->
  1 <= num_qubits ob ->
  0 <= num_clbits ob <= num_qubits ob - 1 ->
  let c := fresh (dom (heap w)) in
  _construct_the_circuit oracle_block w
  = Ok (c, World (<[c := dj_circuit ob]> (heap w)) (entropy w)).
Proof.
  intros Hob Hnq Hnc c.
  assert (Hc : heap w !! c = None) by (apply not_elem_of_dom, is_fresh).
  assert (Hne : c <> oracle_block) by congruence.
  unfold _construct_the_circuit.
  assert (Hload : QC.load oracle_block w = Ok (ob, w)).
  { unfold QC.load. by rewrite Hob. }
  rewrite (bind_ok _ _ _ _ _ Hload).
  set (n := num_qubits ob - 1).
  assert (Hnew : QC.new (n + 1) n w
                 = Ok (c, at_c (heap w) (entropy w) c "circuit" (n + 1) n [])).
  { unfold QC.new. rewrite decide_True by lia. done. }
  rewrite (bind_ok _ _ _ _ _ Hnew).
  assert (Hloop : forall d,
    QC.for_each (range n) (fun qubit => QC.h c qubit)
      (at_c (heap w) (entropy w) c "circuit" (n + 1) n d)
    = Ok (tt, at_c (heap w) (entropy w) c "circuit" (n + 1) n
                (d ++ ((fun q => Prim (GH q)) <$> range n)))).
  { intros d.
    rewrite (for_each_at_c _ _ _ _ _ _ _ _ (fun q => [Prim (GH q)])).
    - by rewrite concat_singletons.
    - intros q d' Hq%elem_of_range. apply h_at_c. lia. }
  rewrite (bind_ok _ _ _ _ _ (Hloop _)).
  erewrite bind_ok; [|apply x_at_c; lia].
  erewrite bind_ok; [|apply h_at_c; lia].
  erewrite bind_ok; [|apply barrier_at_c].
  match goal with
  | |- context [QC.append c oracle_block ?qa ?ca] =>
      assert (Happ : forall d,
        QC.append c oracle_block qa ca
          (at_c (heap w) (entropy w) c "circuit" (n + 1) n d)
        = Ok (tt, at_c (heap w) (entropy w) c "circuit" (n + 1) n
                    (d ++ [Composite (name ob) (num_qubits ob) (num_clbits ob)
                                     (data ob) qa ca])))
  end.
  { intros d. unfold QC.append.
    rewrite (bind_ok _ _ _ _ _ (load_at_c _ _ _ _ _ _ _)).
    assert (Hl : QC.load oracle_block
                   (at_c (heap w) (entropy w) c "circuit" (n + 1) n d)
                 = Ok (ob, at_c (heap w) (entropy w) c "circuit" (n + 1) n d)).
    { unfold QC.load, at_c; simpl. by rewrite lookup_insert_ne, Hob. }
    rewrite (bind_ok _ _ _ _ _ Hl).
    rewrite decide_True by (rewrite !length_range; lia).
    simpl.
    erewrite bind_ok; [|apply indices_ok;
      replace (n + 1) with (num_qubits ob) by lia; apply Forall_range].
    erewrite bind_ok; [|apply indices_ok;
      eapply Forall_impl; [apply Forall_range|simpl; lia]].
    by rewrite store_at_c. }
  rewrite (bind_ok _ _ _ _ _ (Happ _)).
  erewrite bind_ok; [|apply barrier_at_c].
  rewrite (bind_ok _ _ _ _ _ (Hloop _)).
  erewrite bind_ok; [|apply barrier_at_c].
  erewrite bind_ok;
    [|apply (for_each_at_c _ _ _ _ _ _ _ _ (fun q => [Prim (GMeasure q q)]));
      intros q d' Hq%elem_of_range; apply measure_at_c; lia].
  rewrite concat_singletons.
  unfold ret, at_c, dj_circuit, dj_data. fold n.
  replace (n + 1) with (num_qubits ob) by lia.
  by rewrite <- !app_assoc.
Qed.

Lemma lookup_range k (j : nat) :
  Z.of_nat j < k -> range k !! j = Some (Z.of_nat j).
Proof.
  intros Hj. unfold range. rewrite list_lookup_fmap, lookup_seq_lt by lia. done.
Qed.

Lemma elem_of_enumerate {T} (l : list T) i a :
  (i, a) ∈ enumerate l -> 0 <= i < Z.of_nat (length l).
Proof.
  unfold enumerate. intros (j & y & Heq & Hj)%elem_of_lookup_imap.
  apply lookup_lt_Some in Hj. injection Heq as -> ->. lia.
Qed.

Lemma enumerate_range {T} (g : Z -> T) k :
  enumerate (g <$> range k) = (fun i => (i, g i)) <$> range k.
Proof.
  unfold enumerate, range. rewrite <- !list_fmap_compose, imap_fmap.
  generalize (Z.to_nat k). intros len.
  apply list_eq. intros j. rewrite list_lookup_imap, list_lookup_fmap.
  destruct (decide (j < len)%nat) as [Hj|Hj].
  - rewrite lookup_seq_lt by done. done.
  - rewrite lookup_seq_ge by lia. done.
Qed.

Lemma fst_enumerate {T} (l : list T) :
  fst <$> enumerate l = range (Z.of_nat (length l)).
Proof.
  unfold enumerate, range. rewrite fmap_imap, Nat2Z.id.
  apply (imap_seq_0 l Z.of_nat).
Qed.

Lemma fmap_index_enumerate {T U} (f : Z -> U) (l : list T) :
  (fun ic => f ic.1) <$> enumerate l = f <$> range (Z.of_nat (length l)).
Proof. by rewrite <- fst_enumerate, <- list_fmap_compose. Qed.

(** *** The string [format] returns and the bits of the mask *)

Lemma bin_digits_lsb p (k : nat) :
  Z.pos p < 2 ^ Z.of_nat k ->
  reverse (replicate (k - length (bin_digits p)) "0"%char ++ bin_digits p)
  = (fun i => bitchar (Z.testbit (Z.pos p) i)) <$> range (Z.of_nat k).
Proof.
  unfold range. rewrite Nat2Z.id, <- list_fmap_compose.
  revert k. induction p as [p IH|p IH|]; intros k Hk.
  - destruct k as [|k]; [simpl in Hk; lia|].
    rewrite Nat2Z.inj_succ, Z.pow_succ_r in Hk by lia.
    simpl bin_digits. rewrite app_assoc, reverse_snoc, length_app. simpl.
    rewrite <- fmap_S_seq, <- list_fmap_compose.
    f_equal.
    + replace (k - (length (bin_digits p) + 1 - 1))%nat
        with (k - length (bin_digits p))%nat by lia.
      replace (S k - (length (bin_digits p) + 1))%nat
        with (k - length (bin_digits p))%nat by lia.
      rewrite IH by lia. apply list_fmap_ext. intros _ j _. unfold compose.
      f_equal. rewrite Nat2Z.inj_succ, Pos2Z.inj_xI.
      by rewrite Z.testbit_odd_succ by lia.
  - destruct k as [|k]; [simpl in Hk; lia|].
    rewrite Nat2Z.inj_succ, Z.pow_succ_r in Hk by lia.
    simpl bin_digits. rewrite app_assoc, reverse_snoc, length_app. simpl.
    rewrite <- fmap_S_seq, <- list_fmap_compose.
    f_equal.
    + replace (S k - (length (bin_digits p) + 1))%nat
        with (k - length (bin_digits p))%nat by lia.
      rewrite IH by lia. apply list_fmap_ext. intros _ j _. unfold compose.
      f_equal. rewrite Nat2Z.inj_succ, Pos2Z.inj_xO.
      by rewrite Z.testbit_even_succ by lia.
  - destruct k as [|k]; [simpl in Hk; lia|].
    simpl bin_digits. rewrite reverse_snoc, reverse_replicate. simpl.
    rewrite Nat.sub_0_r, <- fmap_S_seq, <- list_fmap_compose. f_equal.
    replace (replicate k "0"%char)
      with (replicate (length (seq 0 k)) "0"%char) by (by rewrite length_seq).
    generalize (seq 0 k). intros l. induction l as [|j l IHl]; [done|].
    rewrite fmap_cons. cbn [length replicate]. by f_equal.
Qed.

Lemma reversed_format_b m n :
  1 <= m < 2 ^ n ->
  reversed (chars (format_b m n))
  = (fun i => bitchar (Z.testbit m i)) <$> range n.
Proof.
  intros [Hm Hlt].
  assert (0 <= n) by (destruct (decide (0 <= n)); [done|];
                      rewrite Z.pow_neg_r in Hlt; lia).
  destruct m as [|p|p]; try lia.
  unfold reversed, chars, format_b.
  rewrite list_ascii_of_string_of_list_ascii. simpl.
  rewrite Nat.sub_0_r.
  rewrite <- (Z2Nat.id n) at 2 by done.
  apply bin_digits_lsb. by rewrite Z2Nat.id.
Qed.

Lemma flips_of_bits m (l : list Z) :
  concat ((fun '(i, ch) => if decide (ch = "1"%char) then [Prim (GX i)] else [])
            <$> ((fun i => (i, bitchar (Z.testbit m i))) <$> l))
  = (fun i => Prim (GX i)) <$> filter (fun i => Z.testbit m i = true) l.
Proof.
  induction l as [|i l IH]; [done|].
  rewrite !fmap_cons, filter_cons. cbn [concat]. rewrite IH.
  destruct (Z.testbit m i); done.
Qed.

(** *** From circuit to named instruction *)

Lemma instruction_named h e c nq nc d nm :
  c = fresh (dom h) ->
  (inst <- QC.to_instruction c ;; QC.set_name inst nm ;;; ret inst)
    (at_c h e c "circuit" nq nc d)
  = Ok (oracle_loc h nq nc d, World (oracle_heap h nm nq nc d) e).
Proof.
  intros ->. unfold QC.to_instruction.
  erewrite bind_ok; [|erewrite bind_ok; [|apply load_at_c]; reflexivity].
  unfold QC.set_name, QC.load, QC.store, QC.alloc, bind, ret, at_c; simpl.
  rewrite lookup_insert_eq; simpl. by rewrite insert_insert_eq.
Qed.

Lemma randint_in_bounds low high w :
  - 2 ^ 63 <= low -> high <= 2 ^ 63 -> low < high ->
  Numpy.randint low high w
  = Ok (low + entropy w 0%nat `mod` (high - low),
        World (heap w) (drawn (entropy w))).
Proof.
  intros Hlow Hhigh Hlt. unfold Numpy.randint.
  rewrite !decide_False by lia. by rewrite decide_True.
Qed.

Lemma randint_fails low high w :
  high <= low -> Numpy.randint low high w = Err ValueError.
Proof.
  intros Hle. unfold Numpy.randint.
  repeat case_decide; try done. lia.
Qed.

Lemma randint_at_c low high h e c nm nq nc d :
  - 2 ^ 63 <= low -> high <= 2 ^ 63 -> low < high ->
  Numpy.randint low high (at_c h e c nm nq nc d)
  = Ok (low + e 0%nat `mod` (high - low), at_c h (drawn e) c nm nq nc d).
Proof. intros Hlow Hhigh Hlt. by rewrite randint_in_bounds. Qed.

Lemma pow2_small n : 0 <= n <= 63 -> 0 < 2 ^ n <= 2 ^ 63.
Proof.
  intros Hn. split; [apply Z.pow_pos_nonneg; lia|].
  apply Z.pow_le_mono_r; lia.
Qed.

Lemma float_limit_pos : 0 < float_limit.
Proof. reflexivity. Qed.

Lemma pow2_nonneg n : 0 <= n -> pow2 n = Ok (2 ^ n).
Proof. intros Hn. unfold pow2. by rewrite decide_True. Qed.

Lemma pow2_negative n : - float_limit < n < 0 -> pow2 n = Ok 0.
Proof.
  intros Hn. unfold pow2. rewrite decide_False by lia.
  by rewrite decide_True by lia.
Qed.

Lemma pow2_overflow n : n <= - float_limit -> pow2 n = Err OverflowError.
Proof.
  intros Hn. pose proof float_limit_pos. unfold pow2.
  by rewrite !decide_False by lia.
Qed.

Lemma give_a_constant_oracle_runs w n :
  0 <= n ->
  let d := constant_data n (entropy w 0%nat `mod` 2) in
  give_a_constant_oracle n w
  = Ok (oracle_loc (heap w) (n + 1) 0 d,
        World (oracle_heap (heap w) "ConstantOracle" (n + 1) 0 d)
              (drawn (entropy w))).
Proof.
  intros Hn d. unfold give_a_constant_oracle.
  assert (Hnew : QC.new (n + 1) 0 w
                 = Ok (fresh (dom (heap w)),
                       at_c (heap w) (entropy w) (fresh (dom (heap w)))
                            "circuit" (n + 1) 0 [])).
  { unfold QC.new. by rewrite decide_True by lia. }
  rewrite (bind_ok _ _ _ _ _ Hnew).
  erewrite bind_ok; [|by apply randint_at_c].
  rewrite Z.add_0_l, Z.sub_0_r. fold d.
  assert (Hflip :
    (if decide (entropy w 0%nat `mod` 2 = 1)
     then QC.x (fresh (dom (heap w))) n else ret tt)
      (at_c (heap w) (drawn (entropy w)) (fresh (dom (heap w)))
            "circuit" (n + 1) 0 [])
    = Ok (tt, at_c (heap w) (drawn (entropy w)) (fresh (dom (heap w)))
                   "circuit" (n + 1) 0 d)).
  { unfold d, constant_data. case_decide; [|done].
    rewrite x_at_c by lia. done. }
  rewrite (bind_ok _ _ _ _ _ Hflip).
  by apply instruction_named.
Qed.

Lemma give_a_balanced_oracle_runs w n :
  1 <= n <= 63 ->
  let m := 1 + entropy w 0%nat `mod` (2 ^ n - 1) in
  give_a_balanced_oracle n w
  = Ok (oracle_loc (heap w) (n + 1) n (balanced_data n m),
        World (oracle_heap (heap w) "BalancedOracle" (n + 1) n
                           (balanced_data n m))
              (drawn (entropy w))).
Proof.
  intros Hn m. unfold give_a_balanced_oracle.
  assert (Hpow : 2 <= 2 ^ n).
  { change 2 with (2 ^ 1) at 1. apply Z.pow_le_mono_r; lia. }
  assert (Hm : 1 <= m < 2 ^ n).
  { unfold m. pose proof (Z.mod_pos_bound (entropy w 0%nat) (2 ^ n - 1)). lia. }
  assert (Hhigh : lift (pow2 n) w = Ok (2 ^ n, w)).
  { unfold lift. by rewrite pow2_nonneg by lia. }
  rewrite (bind_ok _ _ _ _ _ Hhigh).
  assert (Hdraw : Numpy.randint 1 (2 ^ n) w
                  = Ok (m, World (heap w) (drawn (entropy w)))).
  { pose proof (pow2_small n ltac:(lia)).
    rewrite randint_in_bounds; [done|lia|lia|lia]. }
  rewrite (bind_ok _ _ _ _ _ Hdraw).
  assert (Hrev := reversed_format_b m n Hm).
  assert (Hlen : length (chars (format_b m n)) = Z.to_nat n).
  { rewrite <- (length_reverse (chars _)). fold (reversed (chars (format_b m n))).
    rewrite Hrev. unfold range. by rewrite !length_fmap, length_seq. }
  set (c := fresh (dom (heap w))).
  assert (Hnew : QC.new (n + 1) n (World (heap w) (drawn (entropy w)))
                 = Ok (c, at_c (heap w) (drawn (entropy w)) c
                               "circuit" (n + 1) n [])).
  { unfold QC.new. by rewrite decide_True by lia. }
  rewrite (bind_ok _ _ _ _ _ Hnew).
  assert (Hflips : forall d,
    QC.for_each (enumerate (reversed (chars (format_b m n))))
      (fun '(index, qubit) =>
         if decide (qubit = "1"%char) then QC.x c index else ret tt)
      (at_c (heap w) (drawn (entropy w)) c "circuit" (n + 1) n d)
    = Ok (tt, at_c (heap w) (drawn (entropy w)) c "circuit" (n + 1) n
                   (d ++ mask_flips n m))).
  { intros d.
    rewrite (for_each_at_c _ _ _ _ _ _ _ _
               (fun '(i, ch) => if decide (ch = "1"%char)
                                then [Prim (GX i)] else [])).
    - by rewrite Hrev, enumerate_range, flips_of_bits.
    - intros [i ch] d' Hin%elem_of_enumerate.
      unfold reversed in Hin. rewrite length_reverse, Hlen in Hin.
      case_decide; [apply x_at_c; lia|]. unfold ret. by rewrite app_nil_r. }
  rewrite (bind_ok _ _ _ _ _ (Hflips _)).
  erewrite bind_ok;
    [|apply (for_each_at_c _ _ _ _ _ _ _ _ (fun ic => [Prim (GCX ic.1 n)]));
      intros [i ch] d' Hin%elem_of_enumerate; rewrite Hlen in Hin;
      apply cx_at_c; simpl; lia].
  rewrite (bind_ok _ _ _ _ _ (Hflips _)).
  rewrite (concat_singletons (fun ic : Z * ascii => Prim (GCX ic.1 n))).
  rewrite (fmap_index_enumerate (fun i => Prim (GCX i n))).
  rewrite Hlen, Z2Nat.id by lia. simpl app.
  rewrite <- app_assoc. by apply instruction_named.
Qed.

(** ** Basis states as integers *)

Lemma basis_shiftr nq i : 0 <= nq -> 0 <= i < 2 ^ nq <-> Z.shiftr i nq = 0.
Proof.
  intros Hnq. rewrite Z.shiftr_div_pow2 by done.
  assert (0 < 2 ^ nq) by (apply Z.pow_pos_nonneg; lia).
  rewrite Z.div_small_iff by lia. lia.
Qed.

Lemma basis_pow2 nq q : 0 <= q < nq -> 0 <= 2 ^ q < 2 ^ nq.
Proof.
  intros Hq. split; [apply Z.pow_nonneg; lia|].
  apply Z.pow_lt_mono_r; lia.
Qed.

Lemma pow2_shiftr nq q : 0 <= q < nq -> Z.shiftr (2 ^ q) nq = 0.
Proof. intros Hq. apply basis_shiftr; [lia|]. by apply basis_pow2. Qed.

Lemma basis_lxor nq q i :
  0 <= q < nq -> 0 <= i < 2 ^ nq -> 0 <= Z.lxor i (2 ^ q) < 2 ^ nq.
Proof.
  intros Hq Hi. apply basis_shiftr; [lia|].
  rewrite Z.shiftr_lxor.
  apply (basis_shiftr nq) in Hi as ->; [|lia].
  by rewrite pow2_shiftr.
Qed.

Lemma basis_setbit nq q i :
  0 <= q < nq -> 0 <= i < 2 ^ nq -> 0 <= Z.setbit i q < 2 ^ nq.
Proof.
  intros Hq Hi. apply basis_shiftr; [lia|].
  rewrite Z.setbit_spec', Z.shiftr_lor.
  apply (basis_shiftr nq) in Hi as ->; [|lia].
  by rewrite pow2_shiftr.
Qed.

Lemma basis_clearbit nq q i :
  0 <= q < nq -> 0 <= i < 2 ^ nq -> 0 <= Z.clearbit i q < 2 ^ nq.
Proof.
  intros Hq Hi. apply basis_shiftr; [lia|].
  rewrite Z.clearbit_spec', Z.shiftr_ldiff.
  apply (basis_shiftr nq) in Hi as ->; [|lia].
  by rewrite pow2_shiftr.
Qed.

Lemma testbit_flip i q j :
  0 <= q -> Z.testbit (Z.lxor i (2 ^ q)) j = xorb (Z.testbit i j) (bool_decide (q = j)).
Proof.
  intros Hq. rewrite Z.lxor_spec, Z.pow2_bits_eqb by done.
  f_equal. case_bool_decide; [by apply Z.eqb_eq|by apply Z.eqb_neq].
Qed.

(** ** Product states under the gates *)

Lemma product_from_ext ws k i i' :
  (forall (j : nat) w, ws !! j = Some w ->
     sel w (Z.testbit i (k + Z.of_nat j)) = sel w (Z.testbit i' (k + Z.of_nat j))) ->
  product_from k ws i = product_from k ws i'.
Proof.
  revert k. induction ws as [|w ws IH]; intros k Hsel; simpl; [done|].
  f_equal.
  - specialize (Hsel 0%nat w eq_refl). by rewrite Z.add_0_r in Hsel.
  - apply IH. intros j w' Hj. specialize (Hsel (S j) w' Hj).
    by replace (k + 1 + Z.of_nat j) with (k + Z.of_nat (S j)) by lia.
Qed.

(** The amplitude splits into the factor of one wire and the rest. *)
Lemma product_from_factor ws k (q : nat) w i :
  ws !! q = Some w ->
  product_from k ws i
  = sel w (Z.testbit i (k + Z.of_nat q)) * product_from k (<[q := (1, 1)]> ws) i.
Proof.
  revert k q. induction ws as [|w' ws IH]; intros k q Hq; [done|].
  destruct q as [|q].
  - injection Hq as ->.
    change (<[0%nat := (1, 1)]> (w :: ws)) with ((1, 1) :: ws).
    cbn [product_from]. change (Z.of_nat 0) with 0. rewrite Z.add_0_r.
    destruct (Z.testbit i k); simpl; lia.
  - change (<[S q := (1, 1)]> (w' :: ws)) with (w' :: <[q := (1, 1)]> ws).
    cbn [product_from]. rewrite (IH (k + 1) q Hq).
    replace (k + 1 + Z.of_nat q) with (k + Z.of_nat (S q)) by lia.
    lia.
Qed.

Lemma product_from_insert ws k (q : nat) w i :
  (q < length ws)%nat ->
  product_from k (<[q := w]> ws) i
  = sel w (Z.testbit i (k + Z.of_nat q)) * product_from k (<[q := (1, 1)]> ws) i.
Proof.
  intros Hq.
  rewrite (product_from_factor (<[q := w]> ws) k q w)
    by (by apply list_lookup_insert_eq).
  by rewrite list_insert_insert_eq.
Qed.

Lemma product_from_alter ws k (q : nat) f w i :
  ws !! q = Some w ->
  product_from k (alter f q ws) i
  = sel (f w) (Z.testbit i (k + Z.of_nat q)) * product_from k (<[q := (1, 1)]> ws) i.
Proof.
  intros Hq.
  rewrite (product_from_factor (alter f q ws) k q (f w))
    by (by rewrite list_lookup_alter_eq, Hq).
  f_equal. f_equal. apply list_eq. intros j.
  destruct (decide (q = j)) as [<-|Hne].
  - apply lookup_lt_Some in Hq.
    rewrite !list_lookup_insert_eq; [done|done|by rewrite length_alter].
  - by rewrite !list_lookup_insert_ne, list_lookup_alter_ne.
Qed.

(** The rest does not see the bit of the wire that was taken out. *)
Lemma product_from_rest ws k (q : nat) i i' :
  (forall j, j <> k + Z.of_nat q -> Z.testbit i j = Z.testbit i' j) ->
  product_from k (<[q := (1, 1)]> ws) i = product_from k (<[q := (1, 1)]> ws) i'.
Proof.
  intros Hbits. apply product_from_ext. intros j w Hj.
  destruct (decide (q = j)) as [<-|Hne].
  - assert (q < length ws)%nat.
    { apply lookup_lt_Some in Hj. by rewrite length_insert in Hj. }
    rewrite list_lookup_insert_eq in Hj by done. injection Hj as <-.
    by destruct (Z.testbit i _), (Z.testbit i' _).
  - rewrite Hbits by lia. done.
Qed.

Section Gates.

Variables (ws : list wire) (q : Z) (w : wire).
Hypothesis Hq : 0 <= q.
Hypothesis Hw : ws !! Z.to_nat q = Some w.

Local Lemma wire_index : 0 + Z.of_nat (Z.to_nat q) = q.
Proof. lia. Qed.

Lemma product_state_factor i :
  product_state ws i
  = sel w (Z.testbit i q) * product_from 0 (<[Z.to_nat q := (1, 1)]> ws) i.
Proof.
  unfold product_state.
  by rewrite (product_from_factor ws 0 (Z.to_nat q) w i Hw), wire_index.
Qed.

Lemma product_state_alter f i :
  product_state (alter f (Z.to_nat q) ws) i
  = sel (f w) (Z.testbit i q)
    * product_from 0 (<[Z.to_nat q := (1, 1)]> ws) i.
Proof.
  unfold product_state.
  by rewrite (product_from_alter ws 0 (Z.to_nat q) f w i Hw), wire_index.
Qed.

Lemma product_state_rest i i' :
  (forall j, j <> q -> Z.testbit i j = Z.testbit i' j) ->
  product_from 0 (<[Z.to_nat q := (1, 1)]> ws) i
  = product_from 0 (<[Z.to_nat q := (1, 1)]> ws) i'.
Proof.
  intros Hbits. apply product_from_rest. intros j Hj. apply Hbits. lia.
Qed.

Lemma rest_flip i :
  product_from 0 (<[Z.to_nat q := (1, 1)]> ws) (Z.lxor i (2 ^ q))
  = product_from 0 (<[Z.to_nat q := (1, 1)]> ws) i.
Proof.
  apply product_state_rest. intros j Hj.
  rewrite testbit_flip by done. rewrite bool_decide_false by done.
  apply xorb_false_r.
Qed.

Lemma flip_bit i : Z.testbit (Z.lxor i (2 ^ q)) q = negb (Z.testbit i q).
Proof.
  rewrite testbit_flip by done. rewrite bool_decide_true by done.
  apply xorb_true_r.
Qed.

Lemma product_x i :
  apply_x q (product_state ws) i
  = product_state (alter swap (Z.to_nat q) ws) i.
Proof.
  unfold apply_x.
  rewrite product_state_factor, product_state_alter, rest_flip, flip_bit.
  by destruct (Z.testbit i q).
Qed.

Lemma product_h i :
  apply_h q (product_state ws) i
  = product_state (alter hadamard (Z.to_nat q) ws) i.
Proof.
  unfold apply_h.
  rewrite product_state_alter, !product_state_factor.
  destruct (Z.testbit i q) eqn:Hbit.
  - rewrite Z.clearbit_eq by done.
    rewrite (product_state_rest (Z.clearbit i q) i)
      by (intros j Hj; apply Z.clearbit_neq; congruence).
    unfold hadamard, sel; simpl. lia.
  - rewrite Z.setbit_eq by done.
    rewrite (product_state_rest (Z.setbit i q) i)
      by (intros j Hj; apply Z.setbit_neq; [done|congruence]).
    unfold hadamard, sel; simpl. lia.
Qed.

End Gates.

Lemma product_cx ws c t i :
  0 <= c < Z.of_nat (length ws) -> 0 <= t < Z.of_nat (length ws) ->
  c <> t -> minus_like ws t ->
  apply_cx c t (product_state ws) i
  = product_state (alter kick (Z.to_nat c) ws) i.
Proof.
  intros Hc Ht Hne Hminus. unfold minus_like in Hminus.
  destruct (ws !! Z.to_nat t) as [wt|] eqn:Hwt; [|done].
  destruct (lookup_lt_is_Some_2 ws (Z.to_nat c)) as [wc Hwc]; [lia|].
  unfold apply_cx.
  rewrite (product_state_alter ws c wc) by (done || lia).
  destruct (Z.testbit i c) eqn:Hbit.
  - rewrite (product_state_factor ws t wt) by (done || lia).
    rewrite rest_flip, flip_bit by lia.
    rewrite <- (Z.opp_involutive (_ * _)).
    rewrite <- Z.mul_opp_l.
    replace (- sel wt (negb (Z.testbit i t))) with (sel wt (Z.testbit i t))
      by (destruct (Z.testbit i t); unfold sel; simpl; lia).
    rewrite <- (product_state_factor ws t wt) by (done || lia).
    rewrite (product_state_factor ws c wc) by (done || lia).
    rewrite Hbit. unfold kick, sel; simpl. lia.
  - rewrite (product_state_factor ws c wc) by (done || lia).
    by rewrite Hbit.
Qed.

Lemma length_wire_step g ws ws' :
  wire_step g ws = Some ws' -> length ws' = length ws.
Proof.
  destruct g; simpl; try case_decide; intros [= <-];
    rewrite ?length_alter; done.
Qed.

Lemma wire_step_sound g ws ws' i :
  wire_step g ws = Some ws' -> unitary g (product_state ws) i = product_state ws' i.
Proof.
  destruct g as [q|q|c t|qs|q c]; simpl; try case_decide; intros [= <-].
  - destruct (lookup_lt_is_Some_2 ws (Z.to_nat q)) as [w Hw]; [lia|].
    apply (product_x ws q w); [lia|done].
  - destruct (lookup_lt_is_Some_2 ws (Z.to_nat q)) as [w Hw]; [lia|].
    apply (product_h ws q w); [lia|done].
  - apply product_cx; tauto.
  - done.
Qed.

(** ** Executing gates on product states *)

Lemma wire_step_same_on nq g ws ws' psi :
  Z.of_nat (length ws) = nq ->
  wire_step g ws = Some ws' ->
  same_on nq psi (product_state ws) ->
  same_on nq (unitary g psi) (product_state ws').
Proof.
  intros Hlen Hstep Hsame i Hi.
  rewrite <- (wire_step_sound g ws ws' i Hstep).
  destruct g as [q|q|c t|qs|q c]; simpl in *; try case_decide; try done.
  - unfold apply_x. apply Hsame, basis_lxor; lia.
  - unfold apply_h. destruct (Z.testbit i q).
    + rewrite !Hsame; [done|done|apply basis_clearbit; lia].
    + rewrite !Hsame; [done|apply basis_setbit; lia|done].
  - unfold apply_cx. destruct (Z.testbit i c).
    + apply Hsame, basis_lxor; lia.
    + by apply Hsame.
  - by apply Hsame.
Qed.

Lemma wire_step_unitary g ws ws' : wire_step g ws = Some ws' -> is_measure g = false.
Proof. by destruct g. Qed.

Lemma exec_gate_unitary nq g psi cr :
  is_measure g = false -> exec_gate nq g (psi, cr) = [(unitary g psi, cr)].
Proof. by destruct g. Qed.

Lemma exec_app nq gs1 gs2 cfs :
  exec nq (gs1 ++ gs2) cfs = exec nq gs2 (exec nq gs1 cfs).
Proof. unfold exec. apply foldl_app. Qed.

Lemma wire_run_app gs1 gs2 ws :
  wire_run (gs1 ++ gs2) ws
  = match wire_run gs1 ws with Some ws' => wire_run gs2 ws' | None => None end.
Proof.
  revert ws. induction gs1 as [|g gs1 IH]; intros ws; simpl; [done|].
  destruct (wire_step g ws); [apply IH|done].
Qed.

Lemma length_wire_run gs ws ws' :
  wire_run gs ws = Some ws' -> length ws' = length ws.
Proof.
  revert ws. induction gs as [|g gs IH]; intros ws; simpl.
  - by intros [= <-].
  - destruct (wire_step g ws) as [ws1|] eqn:Hstep; [|done].
    intros Hrun. rewrite (IH _ Hrun). by apply (length_wire_step g).
Qed.

(** The gates of a run on the wires take a state that is the product of
    the wires to one that is the product of the wires after the run. *)
Lemma wire_run_exec nq gs ws ws' psi cr :
  Z.of_nat (length ws) = nq ->
  wire_run gs ws = Some ws' ->
  same_on nq psi (product_state ws) ->
  exists psi', exec nq gs [(psi, cr)] = [(psi', cr)]
               /\ same_on nq psi' (product_state ws').
Proof.
  revert ws psi. induction gs as [|g gs IH]; intros ws psi Hlen Hrun Hsame.
  - injection Hrun as <-. by exists psi.
  - simpl in Hrun. destruct (wire_step g ws) as [ws1|] eqn:Hstep; [|done].
    unfold exec. cbn [foldl flat_map].
    rewrite exec_gate_unitary by (by eapply wire_step_unitary).
    rewrite app_nil_r.
    apply (IH ws1); [|done|by eapply wire_step_same_on].
    by rewrite (length_wire_step g ws ws1).
Qed.

(** ** Layers of gates over the input wires *)

Lemma range_snoc (k : nat) :
  range (Z.of_nat (S k)) = range (Z.of_nat k) ++ [Z.of_nat k].
Proof. unfold range. by rewrite !Nat2Z.id, seq_S, fmap_app. Qed.

Lemma range_cons n :
  1 <= n -> range n = 0 :: (Z.succ <$> range (n - 1)).
Proof.
  intros Hn. unfold range.
  replace (Z.to_nat n) with (S (Z.to_nat (n - 1))) by lia.
  cbn [seq fmap list_fmap]. f_equal.
  rewrite <- fmap_S_seq, <- !list_fmap_compose.
  apply list_fmap_ext. intros _ j _. unfold compose. lia.
Qed.

Lemma alter_middle {T} (f : T -> T) pre w post :
  alter f (length pre) (pre ++ w :: post) = pre ++ f w :: post.
Proof.
  rewrite <- (Nat.add_0_r (length pre)). by rewrite alter_app_r.
Qed.

(** A layer applies one gate per input wire, in the order of the wires;
    when each gate acts on its wire alone, the layer is a map. *)
Lemma wire_run_layer (G : Z -> gate) (f : wire -> wire) (N : nat) rest :
  (forall pre w post,
     length (pre ++ w :: post) = N ->
     wire_step (G (Z.of_nat (length pre))) (pre ++ w :: post ++ rest)
     = Some (pre ++ f w :: post ++ rest)) ->
  forall ins post,
    length (ins ++ post) = N ->
    wire_run (G <$> range (Z.of_nat (length ins))) (ins ++ post ++ rest)
    = Some ((f <$> ins) ++ post ++ rest).
Proof.
  intros Hstep ins. induction ins as [|w ins IH] using rev_ind; intros post Hlen.
  - done.
  - rewrite length_app, Nat.add_1_r, range_snoc, fmap_app, wire_run_app.
    rewrite <- !app_assoc. cbn [app].
    change (ins ++ w :: post ++ rest) with (ins ++ (w :: post) ++ rest).
    rewrite (IH (w :: post)) by (by rewrite <- app_assoc in Hlen).
    cbn [fmap list_fmap wire_run].
    rewrite <- (length_fmap f ins).
    rewrite (Hstep (f <$> ins) w post).
    + by rewrite fmap_app, <- app_assoc.
    + rewrite <- Hlen, !length_app, length_fmap. simpl. lia.
Qed.

Lemma wire_run_h_layer ins rest :
  wire_run (GH <$> range (Z.of_nat (length ins))) (ins ++ rest)
  = Some ((hadamard <$> ins) ++ rest).
Proof.
  apply (wire_run_layer GH hadamard (length ins) rest) with (post := []).
  - intros pre w post Hlen. cbn [wire_step].
    rewrite decide_True by (rewrite length_app; simpl; lia).
    rewrite Nat2Z.id. by rewrite alter_middle.
  - by rewrite app_nil_r.
Qed.

Lemma minus_like_last ins anc :
  anc.1 + anc.2 = 0 -> minus_like (ins ++ [anc]) (Z.of_nat (length ins)).
Proof.
  intros Hanc. unfold minus_like.
  by rewrite Nat2Z.id, list_lookup_middle.
Qed.

Lemma wire_run_cx_layer ins anc :
  anc.1 + anc.2 = 0 ->
  wire_run ((fun i => GCX i (Z.of_nat (length ins)))
              <$> range (Z.of_nat (length ins))) (ins ++ [anc])
  = Some ((kick <$> ins) ++ [anc]).
Proof.
  intros Hanc.
  apply (wire_run_layer (fun i => GCX i (Z.of_nat (length ins))) kick
           (length ins) [anc]) with (post := []).
  - intros pre w post Hlen. cbn [wire_step].
    rewrite decide_True.
    + rewrite Nat2Z.id. by rewrite alter_middle.
    + rewrite length_app in Hlen. simpl in Hlen.
      rewrite !length_app; simpl. rewrite length_app; simpl.
      repeat split; try lia.
      replace (pre ++ w :: post ++ [anc]) with ((pre ++ w :: post) ++ [anc])
        by (by rewrite <- app_assoc).
      rewrite <- Hlen.
      replace (length pre + S (length post))%nat
        with (length (pre ++ w :: post)) by (rewrite length_app; simpl; lia).
      by apply minus_like_last.
  - by rewrite app_nil_r.
Qed.

(** Flips on input wires keep any property of the input wires that a
    flip keeps, and leave the ancilla alone. *)
Lemma wire_run_flips (Q : wire -> Prop) qs ins anc :
  (forall w, Q w -> Q (swap w)) ->
  Forall (fun q => 0 <= q < Z.of_nat (length ins)) qs ->
  Forall Q ins ->
  exists ins', wire_run (GX <$> qs) (ins ++ [anc]) = Some (ins' ++ [anc])
               /\ length ins' = length ins /\ Forall Q ins'.
Proof.
  intros HQ Hqs. revert ins Hqs.
  induction qs as [|q qs IH]; intros ins Hqs Hins.
  - by exists ins.
  - apply Forall_cons in Hqs as [Hq Hqs].
    cbn [fmap list_fmap wire_run wire_step].
    rewrite decide_True by (rewrite length_app; simpl; lia).
    rewrite alter_app_l by lia.
    destruct (IH (alter swap (Z.to_nat q) ins)) as (ins' & Hrun & Hlen & HQ').
    + by rewrite length_alter.
    + apply Forall_alter; [done|]. intros w _. apply HQ.
    + exists ins'. rewrite length_alter in Hlen. done.
Qed.

(** ** The initial state *)

Lemma product_from_zero k ws :
  Forall (fun w => w.1 = 1) ws -> product_from k ws 0 = 1.
Proof.
  intros Hws. revert k. induction Hws as [|w ws Hw _ IH]; intros k; simpl.
  - done.
  - rewrite Z.testbit_0_l, IH. simpl. lia.
Qed.

Lemma init_state_product (N : nat) :
  same_on (Z.of_nat N) init_state (product_state (replicate N (1, 0))).
Proof.
  intros i Hi. unfold init_state. case_decide as Hz.
  - subst i. unfold product_state. rewrite product_from_zero; [done|].
    by apply Forall_replicate.
  - assert (Hpos : 0 < i) by lia.
    assert (Hlog : 0 <= Z.log2 i < Z.of_nat N).
    { split; [apply Z.log2_nonneg|]. apply Z.log2_lt_pow2; lia. }
    rewrite (product_state_factor _ (Z.log2 i) (1, 0)).
    + rewrite Z.bit_log2 by done. done.
    + lia.
    + apply lookup_replicate_2. lia.
Qed.

(** ** Measurement *)

Lemma sum_nonneg (f : Z -> Z) l :
  (forall x, 0 <= f x) -> 0 <= foldr Z.add 0 (f <$> l).
Proof.
  intros Hf. induction l as [|x l IH]; [done|].
  rewrite fmap_cons. cbn [foldr]. specialize (Hf x). lia.
Qed.

Lemma sum_zero (f : Z -> Z) l :
  (forall x, 0 <= f x) ->
  foldr Z.add 0 (f <$> l) = 0 <-> Forall (fun x => f x = 0) l.
Proof.
  intros Hf. induction l as [|x l IH].
  - split; [by constructor|done].
  - rewrite fmap_cons. cbn [foldr]. pose proof (sum_nonneg f l Hf). specialize (Hf x).
    rewrite Forall_cons, <- IH. lia.
Qed.

Lemma weight_zero nq psi q a :
  weight nq psi q a = 0
  <-> forall i, 0 <= i < 2 ^ nq -> Z.testbit i q = a -> psi i = 0.
Proof.
  unfold weight, basis. rewrite sum_zero.
  - rewrite Forall_forall. split.
    + intros H i Hi Hbit. specialize (H i (proj2 (elem_of_range _ _) Hi)).
      rewrite decide_True in H by done. nia.
    + intros H i Hi%elem_of_range. case_decide; [|done].
      rewrite (H i) by done. done.
  - intros i. case_decide; nia.
Qed.

(** ** Keys of the counts *)

Lemma key_of_zeros (n : nat) : key_of (replicate n false) = str_mul "0" (Z.of_nat n).
Proof.
  unfold key_of, str_mul. rewrite fmap_replicate, reverse_replicate, Nat2Z.id.
  induction n as [|n IH]; [done|].
  cbn [replicate string_of_list_ascii Nat.iter]. by rewrite IH.
Qed.

Lemma key_of_inj cr cr' : key_of cr = key_of cr' -> cr = cr'.
Proof.
  unfold key_of. intros H.
  apply (f_equal list_ascii_of_string) in H.
  rewrite !list_ascii_of_string_of_list_ascii in H.
  apply (f_equal reverse) in H. rewrite !reverse_involutive in H.
  revert cr' H. induction cr as [|b cr IH]; intros [|b' cr'] H; try done.
  injection H as Hb H. f_equal; [|by apply IH].
  by destruct b, b'.
Qed.

(** ** The gates of a circuit *)

Lemma unroll_app d1 d2 : unroll (d1 ++ d2) = unroll d1 ++ unroll d2.
Proof. apply flat_map_app. Qed.

Lemma unroll_prims {T} (G : T -> gate) (l : list T) :
  unroll ((fun a => Prim (G a)) <$> l) = G <$> l.
Proof. induction l as [|a l IH]; [done|]. rewrite !fmap_cons. simpl. by f_equal. Qed.

Lemma lookup_total_range k q : 0 <= q < k -> range k !!! Z.to_nat q = q.
Proof.
  intros Hq. apply list_lookup_total_correct.
  rewrite lookup_range by lia. f_equal. lia.
Qed.

Lemma remap_range nq nc g : wf_gate nq nc g -> remap (range nq) (range nc) g = g.
Proof.
  destruct g as [q|q|c t|qs|q c]; simpl.
  - intros Hq. by rewrite lookup_total_range.
  - intros Hq. by rewrite lookup_total_range.
  - intros [Hc Ht]. by rewrite !lookup_total_range.
  - intros Hqs. f_equal. induction Hqs as [|q qs Hq _ IH]; [done|].
    rewrite fmap_cons, IH. by rewrite lookup_total_range.
  - intros [Hq Hc]. by rewrite !lookup_total_range.
Qed.

Lemma fmap_remap_range nq nc gs :
  Forall (wf_gate nq nc) gs -> remap (range nq) (range nc) <$> gs = gs.
Proof.
  induction 1 as [|g gs Hg _ IH]; [done|].
  by rewrite fmap_cons, IH, remap_range.
Qed.

(** The composed circuit, as the simulator sees it: the oracle's gates
    stand between the two layers, on the oracle's own wires. *)
Lemma unroll_dj_data_remap ob :
  unroll (dj_data ob)
  = dj_gates (num_qubits ob - 1)
      (remap (range (num_qubits ob)) (range (num_clbits ob)) <$> unroll (data ob)).
Proof.
  unfold dj_data, dj_gates.
  rewrite !unroll_app, !(unroll_prims GH), (unroll_prims (fun q => GMeasure q q)).
  do 2 f_equal.
  change (unroll [Composite (name ob) (num_qubits ob) (num_clbits ob) (data ob)
                            (range (num_qubits ob)) (range (num_clbits ob))])
    with ((remap (range (num_qubits ob)) (range (num_clbits ob))
             <$> unroll (data ob)) ++ []).
  by rewrite app_nil_r.
Qed.

Lemma unroll_dj_data ob :
  Forall (wf_gate (num_qubits ob) (num_clbits ob)) (unroll (data ob)) ->
  unroll (dj_data ob) = dj_gates (num_qubits ob - 1) (unroll (data ob)).
Proof. intros Hwf. by rewrite unroll_dj_data_remap, fmap_remap_range. Qed.

(** ** The Deutsch-Jozsa circuit on product states *)

Lemma wire_step_x_last ins anc :
  wire_step (GX (Z.of_nat (length ins))) (ins ++ [anc]) = Some (ins ++ [swap anc]).
Proof.
  cbn [wire_step]. rewrite decide_True by (rewrite length_app; simpl; lia).
  by rewrite Nat2Z.id, alter_middle.
Qed.

Lemma wire_step_h_last ins anc :
  wire_step (GH (Z.of_nat (length ins))) (ins ++ [anc])
  = Some (ins ++ [hadamard anc]).
Proof.
  cbn [wire_step]. rewrite decide_True by (rewrite length_app; simpl; lia).
  by rewrite Nat2Z.id, alter_middle.
Qed.

Lemma dj_prepare (N : nat) b :
  wire_run ((GH <$> range (Z.of_nat N))
              ++ [GX (Z.of_nat N); GH (Z.of_nat N); GBarrier b])
           (replicate (S N) (1, 0))
  = Some (replicate N (1, 1) ++ [(1, -1)]).
Proof.
  rewrite replicate_S_end, wire_run_app.
  pose proof (wire_run_h_layer (replicate N (1, 0)) [(1, 0)]) as Hh.
  pose proof (wire_step_x_last (replicate N (1, 1)) (1, 0)) as Hx.
  pose proof (wire_step_h_last (replicate N (1, 1)) (0, 1)) as Hh'.
  rewrite length_replicate in Hh, Hx, Hh'.
  rewrite Hh, fmap_replicate.
  change (hadamard (1, 0)) with (1, 1).
  cbn [wire_run]. rewrite Hx. change (swap (1, 0)) with (0, 1).
  by rewrite Hh'.
Qed.

Lemma dj_finish b b' ins anc :
  wire_run ([GBarrier b] ++ (GH <$> range (Z.of_nat (length ins))) ++ [GBarrier b'])
           (ins ++ [anc])
  = Some ((hadamard <$> ins) ++ [anc]).
Proof.
  cbn [app wire_run wire_step]. by rewrite wire_run_app, wire_run_h_layer.
Qed.

(** Before the measurements the state is the product of the wires the
    gates lead to. *)
Lemma dj_state (N : nat) og ins anc cr :
  wire_run og (replicate N (1, 1) ++ [(1, -1)]) = Some (ins ++ [anc]) ->
  length ins = N ->
  let n := Z.of_nat N in
  exists psi,
    exec (n + 1) (dj_gates n og) [(init_state, cr)]
    = exec (n + 1) ((fun q => GMeasure q q) <$> range n) [(psi, cr)]
    /\ same_on (n + 1) psi (product_state ((hadamard <$> ins) ++ [anc])).
Proof.
  intros Hog Hlen n. unfold dj_gates.
  set (ms := (fun q => GMeasure q q) <$> range n).
  set (b := GBarrier (range (n + 1))).
  replace ((GH <$> range n) ++ [GX n; GH n; b] ++ og ++ [b]
             ++ (GH <$> range n) ++ [b] ++ ms)
    with ((((GH <$> range n) ++ [GX n; GH n; b]) ++ og
             ++ ([b] ++ (GH <$> range n) ++ [b])) ++ ms)
    by (by rewrite <- !app_assoc).
  rewrite exec_app.
  destruct (wire_run_exec (n + 1)
              (((GH <$> range n) ++ [GX n; GH n; b]) ++ og
                 ++ ([b] ++ (GH <$> range n) ++ [b]))
              (replicate (S N) (1, 0)) ((hadamard <$> ins) ++ [anc])
              init_state cr) as (psi & Hexec & Hsame).
  - rewrite length_replicate. lia.
  - rewrite wire_run_app. unfold n, b. rewrite dj_prepare.
    rewrite wire_run_app, Hog. rewrite <- Hlen. apply dj_finish.
  - replace (n + 1) with (Z.of_nat (S N)) by lia. apply init_state_product.
  - exists psi. by rewrite Hexec.
Qed.

(** ** Measuring product states *)

Lemma basis_zero nq : 0 <= nq -> 0 <= 0 < 2 ^ nq.
Proof. intros Hnq. split; [done|]. by apply Z.pow_pos_nonneg. Qed.

Lemma product_from_zero_ne k ws :
  Forall (fun w => w.1 <> 0) ws -> product_from k ws 0 <> 0.
Proof.
  intros Hws. revert k. induction Hws as [|w ws Hw _ IH]; intros k; simpl.
  - done.
  - rewrite Z.testbit_0_l. specialize (IH (k + 1)). simpl. nia.
Qed.

(** A wire whose amplitude on 1 is zero is read as 0, and reading it
    changes nothing. *)
Lemma measure_sure nq ws psi cr q w :
  Z.of_nat (length ws) = nq ->
  same_on nq psi (product_state ws) ->
  0 <= q ->
  ws !! Z.to_nat q = Some w -> w.2 = 0 ->
  product_state ws 0 <> 0 ->
  cr !! Z.to_nat q = Some false ->
  exists psi', exec_gate nq (GMeasure q q) (psi, cr) = [(psi', cr)]
               /\ same_on nq psi' (product_state ws).
Proof.
  intros Hlen Hsame Hq Hw Hw2 Hnz Hcr.
  assert (Hone : forall i, Z.testbit i q = true -> product_state ws i = 0).
  { intros i Hbit. rewrite (product_state_factor ws q w) by done.
    rewrite Hbit. simpl. rewrite Hw2. lia. }
  exists (collapse q false psi). split.
  - cbn [exec_gate]. unfold measure_as. cbn [fst snd].
    rewrite decide_False.
    + rewrite decide_True; [by rewrite app_nil_r, list_insert_id|].
      apply weight_zero. intros i Hi Hbit. rewrite Hsame by done. by apply Hone.
    + rewrite weight_zero. intros H. apply Hnz.
      rewrite <- Hsame by (apply basis_zero; lia).
      apply H; [apply basis_zero; lia|apply Z.testbit_0_l].
  - intros i Hi. unfold collapse. case_decide as Hbit; [by apply Hsame|].
    symmetry. apply Hone. by destruct (Z.testbit i q).
Qed.

Lemma measures_sure nq ws psi cr qs :
  Z.of_nat (length ws) = nq ->
  same_on nq psi (product_state ws) ->
  product_state ws 0 <> 0 ->
  Forall (fun q => 0 <= q
                   /\ (exists w, ws !! Z.to_nat q = Some w /\ w.2 = 0)
                   /\ cr !! Z.to_nat q = Some false) qs ->
  exists psi', exec nq ((fun q => GMeasure q q) <$> qs) [(psi, cr)] = [(psi', cr)]
               /\ same_on nq psi' (product_state ws).
Proof.
  intros Hlen Hsame Hnz Hqs. revert psi Hsame.
  induction Hqs as [|q qs (Hq & (w & Hw & Hw2) & Hcr) _ IH]; intros psi Hsame.
  - by exists psi.
  - destruct (measure_sure nq ws psi cr q w) as (psi1 & Hexec & Hsame1); try done.
    rewrite fmap_cons. unfold exec. cbn [foldl flat_map].
    rewrite Hexec, app_nil_r. by apply IH.
Qed.

(** A classical bit that no later gate writes keeps its value. *)
Lemma exec_gate_keeps nq g (c : nat) b cf :
  (forall q c', g = GMeasure q c' -> Z.to_nat c' <> c) ->
  cf.2 !! c = Some b ->
  Forall (fun cf' : config => cf'.2 !! c = Some b) (exec_gate nq g cf).
Proof.
  intros Hg Hcf. destruct g as [q|q|c0 t|qs|q c']; cbn [exec_gate];
    try (by repeat constructor).
  specialize (Hg q c' eq_refl).
  apply Forall_app. unfold measure_as.
  split; case_decide; repeat constructor; simpl;
    by rewrite list_lookup_insert_ne.
Qed.

Lemma exec_keeps nq gs (c : nat) b cfs :
  Forall (fun g => forall q c', g = GMeasure q c' -> Z.to_nat c' <> c) gs ->
  Forall (fun cf : config => cf.2 !! c = Some b) cfs ->
  Forall (fun cf : config => cf.2 !! c = Some b) (exec nq gs cfs).
Proof.
  intros Hgs. revert cfs. induction Hgs as [|g gs Hg _ IH]; intros cfs Hcfs.
  - done.
  - unfold exec. cbn [foldl]. apply IH.
    apply Forall_flat_map. eapply Forall_impl; [exact Hcfs|].
    intros cf Hcf. by apply exec_gate_keeps.
Qed.

(** A wire whose amplitude on 0 is zero is read as 1. *)
Lemma measure_one nq ws psi cr q c w :
  same_on nq psi (product_state ws) ->
  0 <= q ->
  ws !! Z.to_nat q = Some w -> w.1 = 0 ->
  (Z.to_nat c < length cr)%nat ->
  Forall (fun cf : config => cf.2 !! Z.to_nat c = Some true)
         (exec_gate nq (GMeasure q c) (psi, cr)).
Proof.
  intros Hsame Hq Hw Hw1 Hc. cbn [exec_gate]. unfold measure_as. cbn [fst snd].
  rewrite decide_True.
  - case_decide; repeat constructor. simpl. by apply list_lookup_insert_eq.
  - apply weight_zero. intros i Hi Hbit. rewrite Hsame by done.
    rewrite (product_state_factor ws q w) by done.
    rewrite Hbit. simpl. rewrite Hw1. lia.
Qed.

(** ** What an ideal execution of the composed circuit returns *)

Lemma dj_outcomes_constant (N : nat) og anc :
  wire_run og (replicate N (1, 1) ++ [(1, -1)])
  = Some (replicate N (1, 1) ++ [anc]) ->
  anc.1 <> 0 ->
  let n := Z.of_nat N in
  (fun cf : config => key_of cf.2)
    <$> exec (n + 1) (dj_gates n og) [(init_state, replicate N false)]
  = [str_mul "0" n].
Proof.
  intros Hog Hanc n. subst n.
  destruct (dj_state N og (replicate N (1, 1)) anc (replicate N false) Hog)
    as (psi & -> & Hsame); [apply length_replicate|].
  rewrite fmap_replicate in Hsame.
  change (hadamard (1, 1)) with (2, 0) in Hsame.
  destruct (measures_sure (Z.of_nat N + 1) (replicate N (2, 0) ++ [anc]) psi
              (replicate N false) (range (Z.of_nat N))) as (psi' & -> & _).
  - rewrite length_app, length_replicate. simpl. lia.
  - done.
  - apply product_from_zero_ne, Forall_app. split.
    + by apply Forall_replicate.
    + by constructor.
  - apply Forall_forall. intros q Hq%elem_of_range.
    split; [lia|]. split.
    + exists (2, 0). split; [|done].
      rewrite lookup_app_l by (rewrite length_replicate; lia).
      apply lookup_replicate_2. lia.
    + apply lookup_replicate_2. lia.
  - simpl. by rewrite key_of_zeros.
Qed.

Lemma dj_outcomes_balanced (N : nat) og ins anc :
  wire_run og (replicate N (1, 1) ++ [(1, -1)]) = Some (ins ++ [anc]) ->
  length ins = N ->
  Forall (fun w => w.1 + w.2 = 0) ins ->
  (1 <= N)%nat ->
  let n := Z.of_nat N in
  Forall (fun cf : config => key_of cf.2 <> str_mul "0" n)
         (exec (n + 1) (dj_gates n og) [(init_state, replicate N false)]).
Proof.
  intros Hog Hlen Hins HN n. subst n.
  destruct (dj_state N og ins anc (replicate N false) Hog Hlen)
    as (psi & -> & Hsame).
  destruct ins as [|w0 ins]; [simpl in Hlen; lia|].
  apply Forall_cons in Hins as [Hw0 _].
  rewrite range_cons, fmap_cons by lia.
  unfold exec. cbn [foldl flat_map]. rewrite app_nil_r.
  eapply Forall_impl.
  - apply (exec_keeps (Z.of_nat N + 1) _ 0%nat true).
    + apply Forall_fmap, Forall_fmap, Forall_forall.
      intros q Hq%elem_of_range q' c' [= _ <-]. lia.
    + apply (measure_one (Z.of_nat N + 1)
               ((hadamard <$> w0 :: ins) ++ [anc]) psi _ 0 0 (hadamard w0));
        try done.
      rewrite length_replicate. simpl. lia.
  - intros cf Hcf Hkey. simpl in Hcf.
    rewrite <- key_of_zeros in Hkey. apply key_of_inj in Hkey.
    rewrite Hkey, lookup_replicate_2 in Hcf by lia. done.
Qed.

(** *** The oracles on the prepared wires *)

Lemma unroll_constant_data n coin :
  unroll (constant_data n coin) = if decide (coin = 1) then [GX n] else [].
Proof. unfold constant_data. by case_decide. Qed.

Lemma wire_run_constant (N : nat) coin :
  exists anc,
    wire_run (unroll (constant_data (Z.of_nat N) coin))
             (replicate N (1, 1) ++ [(1, -1)])
    = Some (replicate N (1, 1) ++ [anc])
    /\ anc.1 <> 0.
Proof.
  rewrite unroll_constant_data. case_decide.
  - exists (-1, 1). split; [|done].
    pose proof (wire_step_x_last (replicate N (1, 1)) (1, -1)) as Hx.
    rewrite length_replicate in Hx. cbn [wire_run]. by rewrite Hx.
  - by exists (1, -1).
Qed.

Lemma unroll_balanced_data n m :
  unroll (balanced_data n m)
  = (GX <$> filter (fun i => Z.testbit m i = true) (range n))
    ++ ((fun i => GCX i n) <$> range n)
    ++ (GX <$> filter (fun i => Z.testbit m i = true) (range n)).
Proof.
  unfold balanced_data, mask_flips.
  by rewrite !unroll_app, !(unroll_prims GX), (unroll_prims (fun i => GCX i n)).
Qed.

Lemma Forall_mask n m :
  Forall (fun q => 0 <= q < n) (filter (fun i => Z.testbit m i = true) (range n)).
Proof.
  apply Forall_forall. intros q [_ Hq]%list_elem_of_filter.
  by apply elem_of_range.
Qed.

Lemma wire_run_balanced (N : nat) m :
  exists ins,
    wire_run (unroll (balanced_data (Z.of_nat N) m))
             (replicate N (1, 1) ++ [(1, -1)])
    = Some (ins ++ [(1, -1)])
    /\ length ins = N /\ Forall (fun w => w.1 + w.2 = 0) ins.
Proof.
  rewrite unroll_balanced_data, !wire_run_app.
  destruct (wire_run_flips (fun w => w = (1, 1))
              (filter (fun i => Z.testbit m i = true) (range (Z.of_nat N)))
              (replicate N (1, 1)) (1, -1)) as (ins1 & -> & Hlen1 & Hins1).
  { by intros w ->. }
  { rewrite length_replicate. apply Forall_mask. }
  { by apply Forall_replicate. }
  rewrite length_replicate in Hlen1.
  pose proof (wire_run_cx_layer ins1 (1, -1) eq_refl) as Hcx.
  rewrite Hlen1 in Hcx. rewrite wire_run_app, Hcx.
  destruct (wire_run_flips (fun w => w.1 + w.2 = 0)
              (filter (fun i => Z.testbit m i = true) (range (Z.of_nat N)))
              (kick <$> ins1) (1, -1)) as (ins2 & -> & Hlen2 & Hins2).
  { intros w Hw. unfold swap; simpl. lia. }
  { rewrite length_fmap, Hlen1. apply Forall_mask. }
  { apply Forall_fmap. eapply Forall_impl; [exact Hins1|]. by intros w ->. }
  exists ins2. rewrite length_fmap in Hlen2. split; [done|]. split; [lia|done].
Qed.

Lemma wf_constant_data n coin nc :
  0 <= n -> Forall (wf_gate (n + 1) nc) (unroll (constant_data n coin)).
Proof.
  intros Hn. rewrite unroll_constant_data. case_decide; repeat constructor; lia.
Qed.

Lemma wf_balanced_data n m nc :
  Forall (wf_gate (n + 1) nc) (unroll (balanced_data n m)).
Proof.
  rewrite unroll_balanced_data, !Forall_app.
  assert (Forall (wf_gate (n + 1) nc)
            (GX <$> filter (fun i => Z.testbit m i = true) (range n))).
  { apply Forall_fmap. eapply Forall_impl; [apply Forall_mask|]. simpl. lia. }
  split; [done|]. split; [|done].
  apply Forall_fmap, Forall_forall. intros q Hq%elem_of_range. simpl. lia.
Qed.

(** ** [simulate] *)

Lemma simulate_runs run w oracle_block ob :
  heap w !! oracle_block = Some ob ->
  1 <= num_qubits ob ->
  0 <= num_clbits ob <= num_qubits ob - 1 ->
  simulate run oracle_block w
  = Ok (verdict (num_qubits ob) (run (dj_circuit ob)),
        World (<[fresh (dom (heap w)) := dj_circuit ob]> (heap w)) (entropy w)).
Proof.
  intros Hob Hnq Hnc. unfold simulate.
  rewrite (bind_ok _ _ _ _ _ (construct_the_circuit_runs w _ ob Hob Hnq Hnc)).
  unfold QC.load, bind, ret. cbn [heap]. by rewrite lookup_insert_eq.
Qed.

Lemma ideal_outcomes_dj ob (N : nat) :
  num_qubits ob = Z.of_nat N + 1 ->
  Forall (wf_gate (num_qubits ob) (num_clbits ob)) (unroll (data ob)) ->
  ideal_outcomes (dj_circuit ob)
  = (fun cf : config => key_of cf.2)
      <$> exec (Z.of_nat N + 1) (dj_gates (Z.of_nat N) (unroll (data ob)))
               [(init_state, replicate N false)].
Proof.
  intros Hnq Hwf. unfold ideal_outcomes, dj_circuit. cbn [num_qubits num_clbits data].
  rewrite unroll_dj_data by done. rewrite Hnq.
  replace (Z.of_nat N + 1 - 1) with (Z.of_nat N) by lia.
  by rewrite Nat2Z.id.
Qed.

Lemma ideal_run_ideal : ideal ideal_run.
Proof.
  intros c. unfold ideal_run. split.
  - intros key. rewrite dom_list_to_map_L, elem_of_list_to_set.
    rewrite <- list_fmap_compose. by rewrite list_fmap_id.
  - destruct (ideal_outcomes c) as [|k l]; [done|]. intros _.
    rewrite fmap_cons, list_to_map_cons. apply insert_non_empty.
Qed.

Lemma oracle_heap_lookup h nm nq nc d :
  oracle_heap h nm nq nc d !! oracle_loc h nq nc d = Some (mkQC nm nq nc d).
Proof. unfold oracle_heap, oracle_loc. apply lookup_insert_eq. Qed.

Lemma verdict_constant run ob n :
  ideal run ->
  num_qubits ob = n + 1 ->
  ideal_outcomes (dj_circuit ob) = [str_mul "0" n] ->
  verdict (num_qubits ob) (run (dj_circuit ob)) = {[ "result" := "Constant" ]}.
Proof.
  intros Hideal Hnq Hout. unfold verdict.
  destruct (Hideal (dj_circuit ob)) as [Hkeys Hsome].
  rewrite Hout in Hkeys, Hsome.
  rewrite decide_True; [done|].
  rewrite Hnq. replace (n + 1 - 1) with n by lia.
  destruct (decide (dom (run (dj_circuit ob)) = ∅)) as [Hempty|Hne].
  - apply dom_empty_iff_L in Hempty. by destruct Hsome.
  - apply set_choose_L in Hne as [key Hkey].
    specialize (Hkeys key Hkey). apply list_elem_of_singleton in Hkeys.
    by subst key.
Qed.

Lemma verdict_balanced run ob n :
  ideal run ->
  num_qubits ob = n + 1 ->
  Forall (fun key => key <> str_mul "0" n) (ideal_outcomes (dj_circuit ob)) ->
  verdict (num_qubits ob) (run (dj_circuit ob)) = {[ "result" := "Balanced" ]}.
Proof.
  intros Hideal Hnq Hout. unfold verdict.
  destruct (Hideal (dj_circuit ob)) as [Hkeys _].
  rewrite decide_False; [done|].
  rewrite Hnq. replace (n + 1 - 1) with n by lia.
  intros Hkey%Hkeys. rewrite Forall_forall in Hout. by apply (Hout _ Hkey).
Qed.

(** ** The boolean function of the balanced oracle *)

Lemma classical_run_app gs1 gs2 i :
  classical_run (gs1 ++ gs2) i
  = match classical_run gs1 i with
    | Some j => classical_run gs2 j
    | None => None
    end.
Proof.
  revert i. induction gs1 as [|g gs1 IH]; intros i; simpl; [done|].
  destruct (classical_gate g i); [apply IH|done].
Qed.

Lemma parity_snoc (k : nat) x :
  parity (Z.of_nat (S k)) x
  = xorb (parity (Z.of_nat k) x) (Z.testbit x (Z.of_nat k)).
Proof. unfold parity. by rewrite range_snoc, fmap_app, foldl_app. Qed.

Lemma parity_xor (k : nat) s x m :
  (forall j, 0 <= j < Z.of_nat k ->
     Z.testbit s j = xorb (Z.testbit x j) (Z.testbit m j)) ->
  parity (Z.of_nat k) s = xorb (parity (Z.of_nat k) x) (parity (Z.of_nat k) m).
Proof.
  induction k as [|k IH]; intros Hbits; [done|].
  rewrite !parity_snoc, IH, Hbits by (intros; try apply Hbits; lia).
  by destruct (parity _ x), (parity _ m), (Z.testbit x _), (Z.testbit m _).
Qed.

Lemma parity_ext (k : nat) s x :
  (forall j, 0 <= j < Z.of_nat k -> Z.testbit s j = Z.testbit x j) ->
  parity (Z.of_nat k) s = parity (Z.of_nat k) x.
Proof.
  induction k as [|k IH]; intros Hbits; [done|].
  rewrite !parity_snoc, IH, Hbits by (intros; try apply Hbits; lia). done.
Qed.

Lemma testbit_above n x : 0 <= n -> 0 <= x < 2 ^ n -> Z.testbit x n = false.
Proof.
  intros Hn Hx%basis_shiftr; [|done].
  rewrite <- (Z.add_0_l n), <- Z.shiftr_spec, Hx by done. apply Z.testbit_0_l.
Qed.

(** Flips on distinct wires: the bits of these wires are negated. *)
Lemma flips_bits qs s :
  NoDup qs -> Forall (fun q => 0 <= q) qs ->
  exists s', classical_run (GX <$> qs) s = Some s'
             /\ forall j, Z.testbit s' j
                          = xorb (Z.testbit s j) (bool_decide (j ∈ qs)).
Proof.
  intros Hnd. revert s. induction Hnd as [|q qs Hq _ IH]; intros s Hpos.
  - exists s. split; [done|]. intros j.
    rewrite bool_decide_false by apply not_elem_of_nil. by rewrite xorb_false_r.
  - apply Forall_cons in Hpos as [Hq0 Hpos].
    destruct (IH (Z.lxor s (2 ^ q)) Hpos) as (s' & Hrun & Hbits).
    exists s'. split; [done|]. intros j.
    rewrite Hbits, testbit_flip by done.
    destruct (decide (q = j)) as [->|Hne].
    + rewrite bool_decide_true by done.
      rewrite (bool_decide_false (j ∈ qs)) by done.
      rewrite (bool_decide_true (j ∈ j :: qs)) by apply list_elem_of_here.
      by destruct (Z.testbit s j).
    + rewrite (bool_decide_false (q = j)) by done.
      rewrite xorb_false_r. f_equal. apply bool_decide_ext.
      rewrite elem_of_cons. split; [by right|]. by intros [?|?].
Qed.

(** Controlled flips of the wire [n] from the wires below [k]: the wire
    [n] receives the parity of these wires. *)
Lemma cx_bits (k : nat) n s :
  Z.of_nat k <= n ->
  exists s', classical_run ((fun i => GCX i n) <$> range (Z.of_nat k)) s = Some s'
             /\ (forall j, j <> n -> Z.testbit s' j = Z.testbit s j)
             /\ Z.testbit s' n = xorb (Z.testbit s n) (parity (Z.of_nat k) s).
Proof.
  induction k as [|k IH]; intros Hk.
  - exists s. split; [done|]. split; [done|]. by rewrite xorb_false_r.
  - destruct IH as (s1 & Hrun & Hlow & Hn); [lia|].
    rewrite range_snoc, fmap_app, classical_run_app, Hrun, parity_snoc.
    cbn [fmap list_fmap classical_run classical_gate].
    eexists. split; [done|].
    rewrite (Hlow (Z.of_nat k)) by lia.
    destruct (Z.testbit s (Z.of_nat k)).
    + split.
      * intros j Hj. rewrite testbit_flip by lia.
        rewrite bool_decide_false by done. rewrite xorb_false_r. by apply Hlow.
      * rewrite testbit_flip by lia. rewrite bool_decide_true by done.
        rewrite Hn. by destruct (Z.testbit s n), (parity _ s).
    + split; [done|]. rewrite Hn. by rewrite xorb_false_r.
Qed.

Lemma NoDup_mask n m :
  NoDup (filter (fun i => Z.testbit m i = true) (range n)).
Proof.
  apply NoDup_filter. unfold range.
  apply (NoDup_fmap_2 Z.of_nat), NoDup_seq.
Qed.

Lemma balanced_function nm n nc m x :
  0 <= n -> 0 <= x < 2 ^ n ->
  oracle_function (mkQC nm (n + 1) nc (balanced_data n m)) x
  = Some (xorb (parity n x) (parity n m)).
Proof.
  intros Hn Hx. unfold oracle_function. cbn [data num_qubits].
  rewrite unroll_balanced_data, classical_run_app.
  set (qs := filter (fun i => Z.testbit m i = true) (range n)).
  assert (Hqs : Forall (fun q => 0 <= q) qs).
  { eapply Forall_impl; [apply Forall_mask|]. simpl. lia. }
  assert (Hin : forall j, bool_decide (j ∈ qs)
                          = (Z.testbit m j && bool_decide (0 <= j < n))).
  { intros j. destruct (Z.testbit m j) eqn:Hbit; simpl.
    - apply bool_decide_ext. unfold qs.
      rewrite list_elem_of_filter, elem_of_range. tauto.
    - apply bool_decide_false. unfold qs.
      rewrite list_elem_of_filter. intros [Hm _]. congruence. }
  destruct (flips_bits qs x (NoDup_mask n m) Hqs) as (s1 & H1run & H1).
  destruct (cx_bits (Z.to_nat n) n s1 ltac:(lia)) as (s2 & H2run & H2low & H2n).
  rewrite Z2Nat.id in H2run, H2n by done.
  destruct (flips_bits qs s2 (NoDup_mask n m) Hqs) as (s3 & H3run & H3).
  rewrite H1run. cbv beta iota.
  rewrite classical_run_app, H2run. cbv beta iota. rewrite H3run.
  f_equal. replace (n + 1 - 1) with n by lia.
  rewrite H3, H2n, H1, !Hin.
  rewrite (bool_decide_false (0 <= n < n)) by lia.
  rewrite andb_false_r, !xorb_false_r, testbit_above by done.
  rewrite xorb_false_l.
  rewrite <- (Z2Nat.id n) by done. apply parity_xor.
  intros j Hj. rewrite H1, Hin. rewrite bool_decide_true by lia.
  by rewrite andb_true_r.
Qed.

Lemma drawn_mask_range n w : 1 <= n -> 1 <= drawn_mask n w <= 2 ^ n - 1.
Proof.
  intros Hn. unfold drawn_mask.
  assert (2 <= 2 ^ n).
  { change 2 with (2 ^ 1) at 1. apply Z.pow_le_mono_r; lia. }
  pose proof (Z.mod_pos_bound (entropy w 0%nat) (2 ^ n - 1)). lia.
Qed.

Lemma balanced_oracle_built n w :
  1 <= n <= 63 ->
  the_object (give_a_balanced_oracle n w)
  = Some (mkQC "BalancedOracle" (n + 1) n (balanced_data n (drawn_mask n w))).
Proof.
  intros Hn. rewrite give_a_balanced_oracle_runs by done.
  unfold the_object. cbn [heap]. apply oracle_heap_lookup.
Qed.

Lemma parity_zero (k : nat) : parity (Z.of_nat k) 0 = false.
Proof.
  induction k as [|k IH]; [done|]. by rewrite parity_snoc, IH, Z.testbit_0_l.
Qed.

Lemma parity_one (k : nat) : parity (Z.of_nat (S k)) 1 = true.
Proof.
  induction k as [|k IH]; [done|]. rewrite parity_snoc, IH.
  replace (Z.testbit 1 (Z.of_nat (S k))) with false; [done|].
  rewrite Nat2Z.inj_succ. change 1 with (2 * 0 + 1) at 1.
  rewrite Z.testbit_odd_succ by lia. by rewrite Z.testbit_0_l.
Qed.

(** * The claims *)

(** C1. For every [n >= 1] and every state of the random generator (so
    for both values of the coin), the constant oracle built by
    [give_a_constant_oracle n], composed into the Deutsch-Jozsa circuit and
    run on an ideal backend, is reported as "Constant". *)
Theorem constant_oracle_verdict (n : Z) (w : world)
    (run : QuantumCircuit -> gmap string nat) :
  1 <= n ->
  ideal run ->
  exists w',
    (oracle <- give_a_constant_oracle n ;; simulate run oracle) w
    = Ok ({[ "result" := "Constant" ]}, w').
Proof.
  intros Hn Hideal.
  rewrite (bind_ok _ _ _ _ _ (give_a_constant_oracle_runs w n ltac:(lia))).
  set (d := constant_data n (entropy w 0%nat `mod` 2)).
  set (ob := mkQC "ConstantOracle" (n + 1) 0 d).
  rewrite (simulate_runs run _ _ ob);
    [|apply oracle_heap_lookup|simpl; lia|simpl; lia].
  eexists. do 2 f_equal.
  apply (verdict_constant run ob n Hideal eq_refl).
  rewrite (ideal_outcomes_dj ob (Z.to_nat n)).
  - rewrite Z2Nat.id by lia.
    destruct (wire_run_constant (Z.to_nat n) (entropy w 0%nat `mod` 2))
      as (anc & Hrun & Hanc).
    rewrite Z2Nat.id in Hrun by lia.
    pose proof (dj_outcomes_constant (Z.to_nat n) _ anc Hrun Hanc) as Hout.
    simpl in Hout. by rewrite Z2Nat.id in Hout by lia.
  - simpl. lia.
  - apply wf_constant_data. lia.
Qed.

Lemma constant_oracle_verdict_witness :
  1 <= 2 /\ ideal ideal_run
  /\ exists w',
      (oracle <- give_a_constant_oracle 2 ;; simulate ideal_run oracle)
        (World ∅ (fun _ => 1))
      = Ok ({[ "result" := "Constant" ]}, w').
Proof.
  split; [lia|]. split; [apply ideal_run_ideal|].
  apply (constant_oracle_verdict 2 (World ∅ (fun _ => 1)) ideal_run);
    [lia|apply ideal_run_ideal].
Defined.

(** C2, as stated: for every [n >= 1] the balanced pipeline returns
    "Balanced".  At [n = 64] it returns nothing: the bound [2^64] of the
    draw is outside [int64] and numpy raises [ValueError]. *)
Lemma balanced_verdict_counterexample :
  1 <= 64 /\ ideal ideal_run
  /\ ~ exists w',
        (oracle <- give_a_balanced_oracle 64 ;; simulate ideal_run oracle)
          (World ∅ (fun _ => 0))
        = Ok ({[ "result" := "Balanced" ]}, w').
Proof.
  split; [lia|]. split; [apply ideal_run_ideal|].
  intros [w' H]. vm_compute in H. discriminate H.
Qed.

(** C2, amended. For every [n] with [1 <= n <= 63] and every state of the
    random generator (so for every mask the draw can give), the balanced
    oracle built by [give_a_balanced_oracle n], composed into the
    Deutsch-Jozsa circuit and run on an ideal backend, is reported as
    "Balanced". *)
Theorem balanced_oracle_verdict (n : Z) (w : world)
    (run : QuantumCircuit -> gmap string nat) :
  1 <= n <= 63 ->
  ideal run ->
  exists w',
    (oracle <- give_a_balanced_oracle n ;; simulate run oracle) w
    = Ok ({[ "result" := "Balanced" ]}, w').
Proof.
  intros Hn Hideal.
  rewrite (bind_ok _ _ _ _ _ (give_a_balanced_oracle_runs w n Hn)).
  set (m := 1 + entropy w 0%nat `mod` (2 ^ n - 1)).
  set (ob := mkQC "BalancedOracle" (n + 1) n (balanced_data n m)).
  rewrite (simulate_runs run _ _ ob);
    [|apply oracle_heap_lookup|simpl; lia|simpl; lia].
  eexists. do 2 f_equal.
  apply (verdict_balanced run ob n Hideal eq_refl).
  rewrite (ideal_outcomes_dj ob (Z.to_nat n)).
  - rewrite Z2Nat.id by lia.
    destruct (wire_run_balanced (Z.to_nat n) m) as (ins & Hrun & Hlen & Hins).
    rewrite Z2Nat.id in Hrun by lia.
    pose proof (dj_outcomes_balanced (Z.to_nat n) _ ins _ Hrun Hlen Hins
                  ltac:(lia)) as Hout.
    simpl in Hout. rewrite Z2Nat.id in Hout by lia.
    by apply Forall_fmap.
  - simpl. lia.
  - apply wf_balanced_data.
Qed.

Lemma balanced_oracle_verdict_witness :
  1 <= 3 <= 63 /\ ideal ideal_run
  /\ exists w',
      (oracle <- give_a_balanced_oracle 3 ;; simulate ideal_run oracle)
        (World ∅ (fun _ => 4))
      = Ok ({[ "result" := "Balanced" ]}, w').
Proof.
  split; [lia|]. split; [apply ideal_run_ideal|].
  apply (balanced_oracle_verdict 3 (World ∅ (fun _ => 4)) ideal_run);
    [lia|apply ideal_run_ideal].
Defined.

(** C3. For every [n >= 1] and every non-empty dictionary of counts, the
    verdict is "Constant" exactly when the string of [n] zeros is a key,
    whatever its count and whatever the other keys, and "Balanced"
    otherwise. *)
Theorem verdict_rule (n : Z) (answer : gmap string nat) :
  1 <= n ->
  answer <> ∅ ->
  chars (str_mul "0" n) = replicate (Z.to_nat n) "0"%char
  /\ (verdict (n + 1) answer = {[ "result" := "Constant" ]}
       <-> str_mul "0" n ∈ dom answer)
  /\ (str_mul "0" n ∉ dom answer ->
       verdict (n + 1) answer = {[ "result" := "Balanced" ]}).
Proof.
  intros Hn _. split; [|split].
  - unfold str_mul, chars. induction (Z.to_nat n) as [|k IH]; [done|].
    cbn [Nat.iter replicate]. by rewrite <- IH.
  - unfold verdict. replace (n + 1 - 1) with n by lia.
    case_decide as Hkey; [done|]. split; [|done].
    intros Heq. apply (f_equal (fun d : gmap string string => d !! "result")) in Heq.
    by rewrite !lookup_singleton_eq in Heq.
  - intros Hkey. unfold verdict. replace (n + 1 - 1) with n by lia.
    by rewrite decide_False.
Qed.

Lemma verdict_rule_witness :
  1 <= 2 /\ ({[ "00" := 7%nat; "10" := 1%nat ]} : gmap string nat) <> ∅
  /\ verdict 3 {[ "00" := 7%nat; "10" := 1%nat ]} = {[ "result" := "Constant" ]}.
Proof.
  split; [lia|]. split; [done|].
  apply (verdict_rule 2 {[ "00" := 7%nat; "10" := 1%nat ]}); [lia|done|].
  vm_compute. reflexivity.
Defined.

(** C9, as stated: with counts that are empty, [simulate] fails.  It does
    not: for the constant oracle on two inputs and a backend that reports
    no counts, [simulate] returns a verdict. *)
Lemma empty_counts_counterexample :
  ~ fails ((oracle <- give_a_constant_oracle 2 ;; simulate (fun _ => ∅) oracle)
             (World ∅ (fun _ => 0))).
Proof. intros [e He]. vm_compute in He. discriminate He. Qed.

(** C9, amended. The verdict on an empty dictionary of counts is
    "Balanced", for every number of wires, and [simulate] returns it: no
    error is raised. *)
Theorem empty_counts_verdict (n : Z) (w : world) (oracle_block : loc)
    (ob : QuantumCircuit) :
  heap w !! oracle_block = Some ob ->
  num_qubits ob = n + 1 -> 1 <= n -> 0 <= num_clbits ob <= n ->
  verdict (n + 1) ∅ = {[ "result" := "Balanced" ]}
  /\ exists w', simulate (fun _ => ∅) oracle_block w
                = Ok ({[ "result" := "Balanced" ]}, w').
Proof.
  intros Hob Hnq Hn Hnc.
  assert (Hv : forall k, verdict k ∅ = {[ "result" := "Balanced" ]}).
  { intros k. unfold verdict. rewrite decide_False; [done|].
    rewrite dom_empty_L. apply not_elem_of_empty. }
  split; [apply Hv|].
  rewrite (simulate_runs _ w oracle_block ob) by (done || lia).
  eexists. by rewrite Hv.
Qed.

Lemma empty_counts_verdict_witness :
  verdict 3 ∅ = {[ "result" := "Balanced" ]}
  /\ exists w',
      simulate (fun _ => ∅) 1%positive
        (World {[ 1%positive := mkQC "ConstantOracle" 3 0 [] ]} (fun _ => 0))
      = Ok ({[ "result" := "Balanced" ]}, w').
Proof.
  apply (empty_counts_verdict 2
           (World {[ 1%positive := mkQC "ConstantOracle" 3 0 [] ]} (fun _ => 0))
           1%positive (mkQC "ConstantOracle" 3 0 []));
    [reflexivity|reflexivity|lia|simpl; lia].
Defined.

(** C8, as stated: for [n < 1] both synthesizers fail.  The constant one
    does not at [n = 0]. *)
Lemma synthesis_counterexample :
  ~ (forall n w, n < 1 ->
       fails (give_a_constant_oracle n w) /\ fails (give_a_balanced_oracle n w)).
Proof.
  intros H. destruct (H 0 (World ∅ (fun _ => 0)) ltac:(lia)) as [[e He] _].
  vm_compute in He. discriminate He.
Qed.

(** C8, amended. For every [n < 1] the balanced synthesizer fails: with
    the [ValueError] of a draw from an empty range, or, for an [n] so far
    below zero that it does not convert to a float, with the
    [OverflowError] of [2 ** n].  The constant synthesizer checks nothing
    itself: it fails with [CircuitError] for [n <= -2] (no circuit of a
    negative size) and for [n = -1] when the coin is 1 (no wire to flip);
    for [n = -1] when the coin is not 1 it returns an oracle without
    wires, and for [n = 0] an oracle over the single ancilla wire. *)
Theorem synthesis_below_one (n : Z) (w : world) :
  n < 1 ->
  let coin := entropy w 0%nat `mod` 2 in
  (- float_limit < n -> give_a_balanced_oracle n w = Err ValueError)
  /\ (n <= - float_limit -> give_a_balanced_oracle n w = Err OverflowError)
  /\ (n <= -2 -> give_a_constant_oracle n w = Err CircuitError)
  /\ (n = -1 -> coin = 1 -> give_a_constant_oracle n w = Err CircuitError)
  /\ (n = -1 -> coin <> 1 ->
      the_object (give_a_constant_oracle n w)
      = Some (mkQC "ConstantOracle" 0 0 []))
  /\ (n = 0 ->
      the_object (give_a_constant_oracle n w)
      = Some (mkQC "ConstantOracle" 1 0
                (if decide (coin = 1) then [Prim (GX 0)] else []))).
Proof.
  intros Hn coin.
  assert (Hnew : n = -1 ->
    QC.new (n + 1) 0 w
    = Ok (fresh (dom (heap w)),
          at_c (heap w) (entropy w) (fresh (dom (heap w))) "circuit" 0 0 [])).
  { by intros ->. }
  split; [|split; [|split; [|split; [|split]]]].
  - intros Hfloat. unfold give_a_balanced_oracle.
    destruct (decide (n = 0)) as [->|Hneg].
    + rewrite (bind_ok _ _ _ 1 w) by done.
      apply bind_err. by apply randint_fails.
    + rewrite (bind_ok _ _ _ 0 w)
        by (unfold lift; by rewrite pow2_negative by lia).
      apply bind_err. by apply randint_fails.
  - intros Hfloat. unfold give_a_balanced_oracle. apply bind_err.
    unfold lift. by rewrite pow2_overflow.
  - intros Hsmall. unfold give_a_constant_oracle. apply bind_err.
    unfold QC.new. by rewrite decide_False by lia.
  - intros Hm Hcoin. unfold give_a_constant_oracle.
    rewrite (bind_ok _ _ _ _ _ (Hnew Hm)).
    erewrite bind_ok; [|by apply randint_at_c].
    rewrite Z.add_0_l, Z.sub_0_r. fold coin.
    rewrite decide_True by done. subst n.
    apply bind_err. unfold QC.x.
    rewrite (bind_ok _ _ _ _ _ (load_at_c _ _ _ _ _ _ _)).
    apply bind_err. done.
  - intros Hm Hcoin. unfold give_a_constant_oracle.
    rewrite (bind_ok _ _ _ _ _ (Hnew Hm)).
    erewrite bind_ok; [|by apply randint_at_c].
    rewrite Z.add_0_l, Z.sub_0_r. fold coin.
    rewrite decide_False by done.
    rewrite (bind_ok _ _ _ tt
               (at_c (heap w) (drawn (entropy w)) (fresh (dom (heap w)))
                     "circuit" 0 0 [])) by done.
    rewrite instruction_named by done.
    unfold the_object. cbn [heap]. apply oracle_heap_lookup.
  - intros ->. rewrite (give_a_constant_oracle_runs w 0) by lia.
    unfold the_object. cbn [heap]. apply oracle_heap_lookup.
Qed.

Lemma synthesis_below_one_witness :
  -2 < 1
  /\ give_a_balanced_oracle (-2) (World ∅ (fun _ => 5)) = Err ValueError
  /\ give_a_constant_oracle (-2) (World ∅ (fun _ => 5)) = Err CircuitError.
Proof.
  split; [lia|].
  destruct (synthesis_below_one (-2) (World ∅ (fun _ => 5)) ltac:(lia))
    as (Hb & _ & Hc & _).
  split; [apply Hb; reflexivity|apply Hc; lia].
Defined.

(** ** The shape of the composed circuit *)

Lemma measure_in_dj_data ob q cb :
  Prim (GMeasure q cb) ∈ dj_data ob -> 0 <= q < num_qubits ob - 1 /\ cb = q.
Proof.
  unfold dj_data. rewrite !elem_of_app, !list_elem_of_fmap, !elem_of_cons,
    !elem_of_nil.
  intros [(x & [=] & _)|[[[=]|[[=]|[[=]|[]]]]|[[[=]|[]]|[[[=]|[]]|
    [(x & [=] & _)|[[[=]|[]]|(x & [= -> ->] & Hx)]]]]]].
  by apply elem_of_range in Hx.
Qed.

Lemma measure_in_dj_gates n og q cb :
  GMeasure q cb ∈ dj_gates n og ->
  GMeasure q cb ∈ og \/ (0 <= q < n /\ cb = q).
Proof.
  unfold dj_gates. rewrite !elem_of_app, !list_elem_of_fmap, !elem_of_cons,
    !elem_of_nil.
  intros [(x & [=] & _)|[[[=]|[[=]|[[=]|[]]]]|[Hog|[[[=]|[]]|
    [(x & [=] & _)|[[[=]|[]]|(x & [= -> ->] & Hx)]]]]]].
  - by left.
  - right. by apply elem_of_range in Hx.
Qed.

Lemma remap_not_measure qa ca gs :
  Forall (fun g => is_measure g = false) gs ->
  Forall (fun g => is_measure g = false) (remap qa ca <$> gs).
Proof.
  intros H. apply Forall_fmap. eapply Forall_impl; [exact H|].
  by intros [].
Qed.

(** C6. For every oracle over [n + 1] wires (with at most [n] classical
    bits, as [append] requires), [_construct_the_circuit] returns a new
    circuit over [n + 1] wires and [n] classical bits; the measurements it
    places read an input wire [q < n] into the classical bit [q], so that,
    the oracle holding no measurement, the ancilla wire [n] is never
    measured; and the oracle object, like every other object of the store,
    is left as it was. *)
Theorem composition_structure (w : world) (oracle_block : loc)
    (ob : QuantumCircuit) (n : Z) :
  heap w !! oracle_block = Some ob ->
  num_qubits ob = n + 1 ->
  0 <= n ->
  0 <= num_clbits ob <= n ->
  exists c circ w',
    _construct_the_circuit oracle_block w = Ok (c, w')
    /\ heap w' !! c = Some circ
    /\ num_qubits circ = n + 1
    /\ num_clbits circ = n
    /\ (forall q cb, Prim (GMeasure q cb) ∈ data circ -> 0 <= q < n /\ cb = q)
    /\ (Forall (fun g => is_measure g = false) (unroll (data ob)) ->
        forall q cb, GMeasure q cb ∈ unroll (data circ) -> 0 <= q < n /\ cb = q)
    /\ heap w' !! oracle_block = Some ob
    /\ heap w !! c = None
    /\ (forall l, l <> c -> heap w' !! l = heap w !! l)
    /\ entropy w' = entropy w.
Proof.
  intros Hob Hnq Hn Hnc.
  assert (Hfresh : heap w !! fresh (dom (heap w)) = None)
    by apply not_elem_of_dom, is_fresh.
  exists (fresh (dom (heap w))), (dj_circuit ob). eexists.
  split; [apply (construct_the_circuit_runs w oracle_block ob); (done || lia)|].
  cbn [heap entropy].
  split; [apply lookup_insert_eq|].
  split; [done|]. split; [simpl; lia|].
  split.
  { intros q cb Hin. apply measure_in_dj_data in Hin. lia. }
  split.
  { intros Hrev q cb Hin. simpl in Hin. rewrite unroll_dj_data_remap in Hin.
    apply measure_in_dj_gates in Hin as [Hin|Hin]; [|lia].
    apply (remap_not_measure (range (num_qubits ob)) (range (num_clbits ob)))
      in Hrev.
    rewrite Forall_forall in Hrev. by specialize (Hrev _ Hin). }
  split; [rewrite lookup_insert_ne; [done|congruence]|].
  split; [done|]. split; [|done].
  intros l Hl. by rewrite lookup_insert_ne.
Qed.

Lemma composition_structure_witness :
  exists c circ w',
    _construct_the_circuit 1%positive
      (World {[ 1%positive := mkQC "ConstantOracle" 3 0 [Prim (GX 2)] ]}
             (fun _ => 0))
    = Ok (c, w')
    /\ heap w' !! c = Some circ
    /\ num_qubits circ = 3 /\ num_clbits circ = 2
    /\ heap w' !! 1%positive = Some (mkQC "ConstantOracle" 3 0 [Prim (GX 2)]).
Proof.
  destruct (composition_structure
              (World {[ 1%positive := mkQC "ConstantOracle" 3 0 [Prim (GX 2)] ]}
                     (fun _ => 0))
              1%positive (mkQC "ConstantOracle" 3 0 [Prim (GX 2)]) 2)
    as (c & circ & w' & H1 & H2 & H3 & H4 & _ & _ & H7 & _);
    [reflexivity|reflexivity|lia|simpl; lia|].
  exists c, circ, w'. repeat split; assumption.
Defined.

(** C7. For every oracle over [n + 1] wires, the composed circuit holds,
    in this order: a Hadamard gate on each of the [n] input wires; a flip
    and a Hadamard gate on the ancilla; a barrier; the oracle, appended on
    the wires [0..n]; a barrier; a Hadamard gate on each input wire; a
    barrier; the measurement of each input wire [i] into the classical bit
    [i].  Unrolled, the oracle's gates stand there unchanged, on the same
    wires. *)
Theorem composition_stages (w : world) (oracle_block : loc)
    (ob : QuantumCircuit) (n : Z) :
  heap w !! oracle_block = Some ob ->
  num_qubits ob = n + 1 ->
  0 <= n ->
  0 <= num_clbits ob <= n ->
  exists c circ w',
    _construct_the_circuit oracle_block w = Ok (c, w')
    /\ heap w' !! c = Some circ
    /\ data circ
       = ((fun q => Prim (GH q)) <$> range n)
         ++ [Prim (GX n); Prim (GH n); Prim (GBarrier (range (n + 1)))]
         ++ [Composite (name ob) (n + 1) (num_clbits ob) (data ob)
                       (range (n + 1)) (range (num_clbits ob))]
         ++ [Prim (GBarrier (range (n + 1)))]
         ++ ((fun q => Prim (GH q)) <$> range n)
         ++ [Prim (GBarrier (range (n + 1)))]
         ++ ((fun q => Prim (GMeasure q q)) <$> range n)
    /\ (Forall (wf_gate (n + 1) (num_clbits ob)) (unroll (data ob)) ->
        unroll (data circ)
        = (GH <$> range n)
          ++ [GX n; GH n; GBarrier (range (n + 1))]
          ++ unroll (data ob)
          ++ [GBarrier (range (n + 1))]
          ++ (GH <$> range n)
          ++ [GBarrier (range (n + 1))]
          ++ ((fun q => GMeasure q q) <$> range n)).
Proof.
  intros Hob Hnq Hn Hnc.
  exists (fresh (dom (heap w))), (dj_circuit ob). eexists.
  split; [apply (construct_the_circuit_runs w oracle_block ob); (done || lia)|].
  cbn [heap]. split; [apply lookup_insert_eq|].
  cbn [dj_circuit data]. split.
  - unfold dj_data. rewrite Hnq. by replace (n + 1 - 1) with n by lia.
  - intros Hwf. rewrite unroll_dj_data by (by rewrite Hnq).
    unfold dj_gates. rewrite Hnq. by replace (n + 1 - 1) with n by lia.
Qed.

Lemma composition_stages_witness :
  exists c circ w',
    _construct_the_circuit 1%positive
      (World {[ 1%positive := mkQC "ConstantOracle" 3 0 [Prim (GX 2)] ]}
             (fun _ => 0))
    = Ok (c, w')
    /\ heap w' !! c = Some circ
    /\ data circ
       = [Prim (GH 0); Prim (GH 1); Prim (GX 2); Prim (GH 2);
          Prim (GBarrier [0; 1; 2]);
          Composite "ConstantOracle" 3 0 [Prim (GX 2)] [0; 1; 2] [];
          Prim (GBarrier [0; 1; 2]); Prim (GH 0); Prim (GH 1);
          Prim (GBarrier [0; 1; 2]); Prim (GMeasure 0 0); Prim (GMeasure 1 1)].
Proof.
  destruct (composition_stages
              (World {[ 1%positive := mkQC "ConstantOracle" 3 0 [Prim (GX 2)] ]}
                     (fun _ => 0))
              1%positive (mkQC "ConstantOracle" 3 0 [Prim (GX 2)]) 2)
    as (c & circ & w' & H1 & H2 & H3 & _);
    [reflexivity|reflexivity|lia|simpl; lia|].
  exists c, circ, w'. repeat split; assumption.
Defined.

(** C4, as stated: for every [n >= 1] the controlled flips stand at the
    mask bits that are 1 and nowhere else.  For [n = 2] and the mask 1
    (binary "01") the oracle holds a controlled flip from wire 1, whose
    mask bit is 0; and for [n = 64] there is no gate sequence at all, the
    draw being rejected. *)
Lemma mask_cx_counterexample :
  (exists ob,
     the_object (give_a_balanced_oracle 2 (World ∅ (fun _ => 0))) = Some ob
     /\ drawn_mask 2 (World ∅ (fun _ => 0)) = 1
     /\ ~ cx_only_on_mask 2 1 (unroll (data ob)))
  /\ ~ synthesizes 64 (World ∅ (fun _ => 0)).
Proof.
  split.
  - eexists. split; [vm_compute; reflexivity|]. split; [reflexivity|].
    intros H. destruct (H 1 ltac:(lia)) as [H1 _].
    assert (Hin : GCX 1 2 ∈ [GX 0; GCX 0 2; GCX 1 2; GX 0])
      by (rewrite !elem_of_cons; tauto).
    specialize (H1 Hin). vm_compute in H1. discriminate H1.
  - intros [ob Hob]. vm_compute in Hob. discriminate Hob.
Qed.

(** C4, amended. For every [n] with [1 <= n <= 63] and every drawn mask
    [m] (and [1 <= m <= 2^n - 1]), the gates of the balanced oracle are: a
    flip of the input wire [i] for each position [i] whose mask bit is 1,
    in ascending order; then a controlled flip of the ancilla from every
    input wire [0..n-1], whatever the mask; then the same flips of the
    masked wires again.  The controlled flip of a masked wire thus stands
    between two flips of that wire. *)
Theorem balanced_oracle_gates (n : Z) (w : world) :
  1 <= n <= 63 ->
  let m := drawn_mask n w in
  let masked := filter (fun i => Z.testbit m i = true) (range n) in
  1 <= m <= 2 ^ n - 1
  /\ exists ob,
      the_object (give_a_balanced_oracle n w) = Some ob
      /\ num_qubits ob = n + 1
      /\ data ob
         = ((fun i => Prim (GX i)) <$> masked)
           ++ ((fun i => Prim (GCX i n)) <$> range n)
           ++ ((fun i => Prim (GX i)) <$> masked)
      /\ (forall i, 0 <= i < n -> Prim (GCX i n) ∈ data ob)
      /\ (forall i, Prim (GX i) ∈ data ob <-> 0 <= i < n /\ Z.testbit m i = true).
Proof.
  intros Hn m masked. split; [apply drawn_mask_range; lia|].
  eexists. split; [by apply balanced_oracle_built|].
  split; [done|]. split; [done|].
  cbn [data]. unfold balanced_data, mask_flips. fold m. fold masked.
  assert (Hmasked : forall i, i ∈ masked <-> 0 <= i < n /\ Z.testbit m i = true).
  { intros i. unfold masked. rewrite list_elem_of_filter, elem_of_range. tauto. }
  split.
  - intros i Hi. rewrite !elem_of_app. right; left.
    apply list_elem_of_fmap. exists i. split; [done|]. by apply elem_of_range.
  - intros i. rewrite !elem_of_app, !list_elem_of_fmap. split.
    + intros [(j & [= ->] & Hj)|[(j & [=] & _)|(j & [= ->] & Hj)]];
        by apply Hmasked.
    + intros Hi%Hmasked. left. by exists i.
Qed.

Lemma balanced_oracle_gates_witness :
  1 <= 2 <= 63
  /\ exists ob,
      the_object (give_a_balanced_oracle 2 (World ∅ (fun _ => 0))) = Some ob
      /\ data ob
         = [Prim (GX 0); Prim (GCX 0 2); Prim (GCX 1 2); Prim (GX 0)].
Proof.
  split; [lia|].
  destruct (balanced_oracle_gates 2 (World ∅ (fun _ => 0)) ltac:(lia))
    as (_ & ob & Hob & _ & Hdata & _).
  exists ob. split; [exact Hob|]. rewrite Hdata. reflexivity.
Defined.

(** C5, as stated: for every [n >= 1] the synthesizer draws a mask of
    [[1, 2^n - 1]].  At [n = 64] it draws none: the bound [2^64] is outside
    [int64] and numpy raises [ValueError]. *)
Lemma mask_range_counterexample :
  1 <= 64 /\ ~ draws_mask 64 (World ∅ (fun _ => 0)).
Proof.
  split; [lia|]. intros (m & w' & H & _). vm_compute in H. discriminate H.
Qed.

(** C5, amended. For every [n] with [1 <= n <= 63] the balanced
    synthesizer draws its mask in [[1, 2^n - 1]] (and every mask of that
    range can be drawn): the mask is never 0.  The oracle built from it is
    never constant: it answers differently on the inputs 0 and 1. *)
Theorem mask_range (n : Z) (w : world) :
  1 <= n <= 63 ->
  let m := drawn_mask n w in
  (high <- lift (pow2 n) ;; Numpy.randint 1 high) w
  = Ok (m, World (heap w) (drawn (entropy w)))
  /\ 1 <= m <= 2 ^ n - 1
  /\ m <> 0
  /\ (forall m', 1 <= m' <= 2 ^ n - 1 ->
       exists e, drawn_mask n (World (heap w) e) = m')
  /\ exists ob,
      the_object (give_a_balanced_oracle n w) = Some ob
      /\ data ob = balanced_data n m
      /\ oracle_function ob 0 <> oracle_function ob 1.
Proof.
  intros Hn m.
  pose proof (drawn_mask_range n w ltac:(lia)) as Hm. fold m in Hm.
  split.
  { rewrite (bind_ok _ _ _ (2 ^ n) w)
      by (unfold lift; by rewrite pow2_nonneg by lia).
    pose proof (pow2_small n ltac:(lia)).
    rewrite randint_in_bounds; [done|lia|lia|lia]. }
  split; [done|]. split; [lia|]. split.
  { intros m' Hm'. exists (fun _ => m' - 1). unfold drawn_mask. cbn [entropy].
    rewrite Z.mod_small by lia. lia. }
  eexists. split; [by apply balanced_oracle_built|]. split; [done|].
  assert (2 <= 2 ^ n).
  { change 2 with (2 ^ 1) at 1. apply Z.pow_le_mono_r; lia. }
  rewrite !balanced_function by lia.
  rewrite <- (Z2Nat.id n) by lia.
  rewrite parity_zero.
  replace (Z.to_nat n) with (S (Z.to_nat (n - 1))) by lia.
  rewrite parity_one. by destruct (parity _ _).
Qed.

Lemma mask_range_witness :
  1 <= 3 <= 63
  /\ (high <- lift (pow2 3) ;; Numpy.randint 1 high) (World ∅ (fun _ => 12))
     = Ok (6, World ∅ (drawn (fun _ => 12))).
Proof.
  split; [lia|].
  apply (mask_range 3 (World ∅ (fun _ => 12))). lia.
Defined.

(** C10, as stated: for every [n >= 1] the synthesizer emits a
    controlled flip from every input wire.  At [n = 64] it emits nothing:
    the draw is rejected and no oracle is returned. *)
Lemma balanced_parity_counterexample :
  1 <= 64 /\ ~ synthesizes 64 (World ∅ (fun _ => 1)).
Proof.
  split; [lia|]. intros [ob Hob]. vm_compute in Hob. discriminate Hob.
Qed.

(** C10, amended. For every [n] with [1 <= n <= 63] the balanced oracle
    holds a controlled flip of the ancilla from every input wire, whatever
    the mask [m] drawn, and no other controlled flip; it computes
    [f x = parity x XOR parity m]; so two draws whose masks have the same
    parity give oracles that compute the same function. *)
Theorem balanced_oracle_parity (n : Z) (w1 w2 : world) :
  1 <= n <= 63 ->
  exists ob1 ob2,
    the_object (give_a_balanced_oracle n w1) = Some ob1
    /\ the_object (give_a_balanced_oracle n w2) = Some ob2
    /\ (forall c t, GCX c t ∈ unroll (data ob1) <-> 0 <= c < n /\ t = n)
    /\ (forall x, 0 <= x < 2 ^ n ->
         oracle_function ob1 x
         = Some (xorb (parity n x) (parity n (drawn_mask n w1))))
    /\ (parity n (drawn_mask n w1) = parity n (drawn_mask n w2) ->
        forall x, 0 <= x < 2 ^ n ->
          oracle_function ob1 x = oracle_function ob2 x).
Proof.
  intros Hn. do 2 eexists.
  split; [by apply balanced_oracle_built|].
  split; [by apply balanced_oracle_built|].
  split; [|split].
  - intros c t. cbn [data]. rewrite unroll_balanced_data.
    rewrite !elem_of_app, !list_elem_of_fmap. split.
    + intros [(j & [=] & _)|[(j & [= -> ->] & Hj)|(j & [=] & _)]].
      by apply elem_of_range in Hj.
    + intros [Hc ->]. right; left. exists c. split; [done|].
      by apply elem_of_range.
  - intros x Hx. apply balanced_function; lia.
  - intros Hpar x Hx. rewrite !balanced_function by lia. by rewrite Hpar.
Qed.

Lemma balanced_oracle_parity_witness :
  1 <= 2 <= 63
  /\ exists ob1 ob2,
      the_object (give_a_balanced_oracle 2 (World ∅ (fun _ => 0))) = Some ob1
      /\ the_object (give_a_balanced_oracle 2 (World ∅ (fun _ => 1))) = Some ob2
      /\ oracle_function ob1 3 = oracle_function ob2 3.
Proof.
  split; [lia|].
  destruct (balanced_oracle_parity 2 (World ∅ (fun _ => 0)) (World ∅ (fun _ => 1))
              ltac:(lia)) as (ob1 & ob2 & H1 & H2 & _ & _ & Hsame).
  exists ob1, ob2. split; [exact H1|]. split; [exact H2|].
  apply Hsame; [reflexivity|lia].
Defined.

(** * Further properties of the program *)

(** ** Counting inputs *)

Lemma length_filter_ext {T} (P Q : T -> Prop)
    `{!forall x, Decision (P x)} `{!forall x, Decision (Q x)} (l : list T) :
  (forall x, x ∈ l -> P x <-> Q x) ->
  length (filter P l) = length (filter Q l).
Proof.
  induction l as [|x l IH]; intros Hext; [done|].
  rewrite !filter_cons.
  assert (HPQ : P x <-> Q x) by apply Hext, list_elem_of_here.
  assert (Hl : length (filter P l) = length (filter Q l)).
  { apply IH. intros y Hy. by apply Hext, list_elem_of_further. }
  destruct (decide (P x)), (decide (Q x)); simpl; tauto || lia.
Qed.

Lemma length_filter_fmap {T U} (f : T -> U) (P : U -> Prop)
    `{!forall y, Decision (P y)} (l : list T) :
  length (filter P (f <$> l)) = length (filter (fun x => P (f x)) l).
Proof.
  induction l as [|x l IH]; [done|].
  rewrite fmap_cons, !filter_cons. destruct (decide (P (f x))); simpl; lia.
Qed.

Lemma length_filter_bool {T} (g : T -> bool) (l : list T) :
  (length (filter (fun x => g x = true) l)
   + length (filter (fun x => g x = false) l))%nat = length l.
Proof.
  induction l as [|x l IH]; [done|].
  rewrite !filter_cons. destruct (g x) eqn:Hg; simpl; lia.
Qed.

Lemma length_filter_all {T} (P : T -> Prop) `{!forall x, Decision (P x)}
    (l : list T) :
  (forall x, x ∈ l -> P x) -> length (filter P l) = length l.
Proof.
  induction l as [|x l IH]; intros HP; [done|].
  rewrite filter_cons_True by apply HP, list_elem_of_here.
  simpl. f_equal. apply IH. intros y Hy. by apply HP, list_elem_of_further.
Qed.

Lemma length_filter_none {T} (P : T -> Prop) `{!forall x, Decision (P x)}
    (l : list T) :
  (forall x, x ∈ l -> ~ P x) -> length (filter P l) = 0%nat.
Proof.
  induction l as [|x l IH]; intros HP; [done|].
  rewrite filter_cons_False by apply HP, list_elem_of_here.
  apply IH. intros y Hy. by apply HP, list_elem_of_further.
Qed.

Lemma range_double (k : nat) :
  range (2 ^ Z.of_nat (S k))
  = range (2 ^ Z.of_nat k)
    ++ ((fun y => y + 2 ^ Z.of_nat k) <$> range (2 ^ Z.of_nat k)).
Proof.
  assert (Hpos : 0 < 2 ^ Z.of_nat k) by (apply Z.pow_pos_nonneg; lia).
  unfold range. rewrite Nat2Z.inj_succ, Z.pow_succ_r by lia.
  replace (Z.to_nat (2 * 2 ^ Z.of_nat k))
    with (Z.to_nat (2 ^ Z.of_nat k) + Z.to_nat (2 ^ Z.of_nat k))%nat by lia.
  rewrite seq_app, fmap_app. f_equal. cbn [Nat.add].
  rewrite <- (Nat.add_0_r (Z.to_nat (2 ^ Z.of_nat k))) at 1.
  rewrite <- fmap_add_seq, <- !list_fmap_compose.
  apply list_fmap_ext. intros _ j _. unfold compose. lia.
Qed.

Lemma testbit_high k y j :
  0 <= k -> 0 <= y < 2 ^ k -> 0 <= j ->
  Z.testbit (y + 2 ^ k) j = if decide (j = k) then true else Z.testbit y j.
Proof.
  intros Hk Hy Hj.
  assert (Hland : Z.land y (2 ^ k) = 0).
  { apply Z.bits_inj_0. intros i. rewrite Z.land_spec.
    destruct (decide (i = k)) as [->|Hne].
    - by rewrite testbit_above by done.
    - rewrite Z.pow2_bits_false by lia. apply andb_false_r. }
  assert (Hset : y + 2 ^ k = Z.setbit y k).
  { rewrite Z.setbit_spec', Z.add_nocarry_lxor by done. by apply Z.lxor_lor. }
  rewrite Hset. case_decide as Hjk.
  - subst j. by apply Z.setbit_eq.
  - apply Z.setbit_neq; [done|congruence].
Qed.

Lemma parity_count_succ (k : nat) b :
  parity_count (S k) b = (parity_count k b + parity_count k (negb b))%nat.
Proof.
  unfold parity_count. rewrite range_double, filter_app, length_app.
  f_equal.
  - apply length_filter_ext. intros x Hx%elem_of_range.
    rewrite parity_snoc, testbit_above by (done || lia).
    by rewrite xorb_false_r.
  - rewrite length_filter_fmap. apply length_filter_ext.
    intros y Hy%elem_of_range.
    rewrite parity_snoc, testbit_high by (done || lia).
    rewrite decide_True by done.
    rewrite (parity_ext k (y + 2 ^ Z.of_nat k) y).
    + destruct (parity (Z.of_nat k) y), b; simpl; split; congruence.
    + intros j Hj. rewrite testbit_high by lia. by rewrite decide_False by lia.
Qed.

Lemma parity_count_half (k : nat) b :
  Z.of_nat (parity_count (S k) b) = 2 ^ Z.of_nat k.
Proof.
  rewrite parity_count_succ.
  pose proof (length_filter_bool (parity (Z.of_nat k)) (range (2 ^ Z.of_nat k)))
    as Hsum.
  assert (Hlen : length (range (2 ^ Z.of_nat k)) = Z.to_nat (2 ^ Z.of_nat k)).
  { unfold range. by rewrite length_fmap, length_seq. }
  assert (0 < 2 ^ Z.of_nat k) by (apply Z.pow_pos_nonneg; lia).
  unfold parity_count. destruct b; simpl; lia.
Qed.

(** ** The oracles as permutations of basis states *)

Lemma basis_state_bits n x a j :
  0 <= n -> 0 <= x < 2 ^ n ->
  Z.testbit (basis_state n x a) j
  = if decide (j = n) then a else Z.testbit x j.
Proof.
  intros Hn Hx. unfold basis_state. destruct a.
  - case_decide as Hj.
    + subst j. by apply Z.setbit_eq.
    + apply Z.setbit_neq; [done|congruence].
  - case_decide as Hj; [|done]. subst j. by apply testbit_above.
Qed.

Lemma parity_basis_state n x a :
  0 <= n -> 0 <= x < 2 ^ n -> parity n (basis_state n x a) = parity n x.
Proof.
  intros Hn Hx. rewrite <- (Z2Nat.id n) at 1 3 by done.
  apply parity_ext. intros j Hj. rewrite basis_state_bits by done.
  by rewrite decide_False by lia.
Qed.

Lemma balanced_action n m s :
  0 <= n ->
  exists s',
    classical_run (unroll (balanced_data n m)) s = Some s'
    /\ (forall j, j <> n -> Z.testbit s' j = Z.testbit s j)
    /\ Z.testbit s' n
       = xorb (Z.testbit s n) (xorb (parity n s) (parity n m)).
Proof.
  intros Hn. rewrite unroll_balanced_data, classical_run_app.
  set (qs := filter (fun i => Z.testbit m i = true) (range n)).
  assert (Hqs : Forall (fun q => 0 <= q) qs).
  { eapply Forall_impl; [apply Forall_mask|]. simpl. lia. }
  assert (Hin : forall j, bool_decide (j ∈ qs)
                          = (Z.testbit m j && bool_decide (0 <= j < n))).
  { intros j. destruct (Z.testbit m j) eqn:Hbit; simpl.
    - apply bool_decide_ext. unfold qs.
      rewrite list_elem_of_filter, elem_of_range. tauto.
    - apply bool_decide_false. unfold qs.
      rewrite list_elem_of_filter. intros [Hm _]. congruence. }
  destruct (flips_bits qs s (NoDup_mask n m) Hqs) as (s1 & H1run & H1).
  destruct (cx_bits (Z.to_nat n) n s1 ltac:(lia)) as (s2 & H2run & H2low & H2n).
  rewrite Z2Nat.id in H2run, H2n by done.
  destruct (flips_bits qs s2 (NoDup_mask n m) Hqs) as (s3 & H3run & H3).
  rewrite H1run. cbv beta iota.
  rewrite classical_run_app, H2run. cbv beta iota. rewrite H3run.
  exists s3. split; [done|]. split.
  - intros j Hj. rewrite H3, H2low, H1 by done.
    by destruct (Z.testbit s j), (bool_decide (j ∈ qs)).
  - rewrite H3, H2n, H1, !Hin.
    rewrite (bool_decide_false (0 <= n < n)) by lia.
    rewrite andb_false_r, !xorb_false_r. f_equal.
    rewrite <- (Z2Nat.id n) by done. apply parity_xor.
    intros j Hj. rewrite H1, Hin. rewrite bool_decide_true by lia.
    by rewrite andb_true_r.
Qed.

Lemma balanced_on_basis_state n m x a :
  0 <= n -> 0 <= x < 2 ^ n ->
  classical_run (unroll (balanced_data n m)) (basis_state n x a)
  = Some (basis_state n x (xorb a (xorb (parity n x) (parity n m)))).
Proof.
  intros Hn Hx.
  destruct (balanced_action n m (basis_state n x a) Hn)
    as (s' & -> & Hlow & Hanc).
  f_equal. apply Z.bits_inj. intros j.
  rewrite (basis_state_bits n x _ j) by done.
  case_decide as Hj.
  - subst j. rewrite Hanc, basis_state_bits, parity_basis_state by done.
    by rewrite decide_True.
  - rewrite Hlow, basis_state_bits by done. by rewrite decide_False.
Qed.

Lemma constant_on_basis_state n coin x a :
  0 <= n -> 0 <= x < 2 ^ n ->
  classical_run (unroll (constant_data n coin)) (basis_state n x a)
  = Some (basis_state n x (xorb a (bool_decide (coin = 1)))).
Proof.
  intros Hn Hx. rewrite unroll_constant_data. case_decide as Hcoin.
  - rewrite bool_decide_true by done. cbn [classical_run classical_gate].
    f_equal. apply Z.bits_inj. intros j.
    rewrite testbit_flip, !basis_state_bits by done.
    case_decide as Hj.
    + subst j. by rewrite bool_decide_true.
    + rewrite bool_decide_false by congruence. apply xorb_false_r.
  - rewrite bool_decide_false by done. by rewrite xorb_false_r.
Qed.

Lemma constant_oracle_built n w :
  0 <= n ->
  the_object (give_a_constant_oracle n w)
  = Some (mkQC "ConstantOracle" (n + 1) 0
            (constant_data n (entropy w 0%nat `mod` 2))).
Proof.
  intros Hn. rewrite give_a_constant_oracle_runs by done.
  unfold the_object. cbn [heap]. apply oracle_heap_lookup.
Qed.

(** X1. The constant oracle computes a constant function, the value of
    the coin: on the basis state with inputs [x] and ancilla [a] it leaves
    the inputs as they are and adds the coin to the ancilla.  It answers 1
    on all of the [2^n] inputs or on none. *)
Theorem constant_oracle_function (n : Z) (w : world) :
  0 <= n ->
  let coin := bool_decide (entropy w 0%nat `mod` 2 = 1) in
  exists ob,
    the_object (give_a_constant_oracle n w) = Some ob
    /\ (forall x a, 0 <= x < 2 ^ n ->
         oracle_function ob x = Some coin
         /\ classical_run (unroll (data ob)) (basis_state n x a)
            = Some (basis_state n x (xorb a coin)))
    /\ Z.of_nat (ones_count ob n) = if coin then 2 ^ n else 0.
Proof.
  intros Hn coin. eexists. split; [by apply constant_oracle_built|].
  assert (Hf : forall x, 0 <= x < 2 ^ n ->
     oracle_function
       (mkQC "ConstantOracle" (n + 1) 0
             (constant_data n (entropy w 0%nat `mod` 2))) x = Some coin).
  { intros x Hx. unfold oracle_function. cbn [data num_qubits].
    pose proof (constant_on_basis_state n (entropy w 0%nat `mod` 2) x false
                  Hn Hx) as Hrun.
    unfold basis_state at 1 in Hrun. rewrite Hrun. f_equal.
    replace (n + 1 - 1) with n by lia.
    rewrite basis_state_bits by done. by rewrite decide_True. }
  split.
  - intros x a Hx. split; [by apply Hf|]. by apply constant_on_basis_state.
  - unfold ones_count.
    assert (Hlen : length (range (2 ^ n)) = Z.to_nat (2 ^ n)).
    { unfold range. by rewrite length_fmap, length_seq. }
    assert (0 < 2 ^ n) by (by apply Z.pow_pos_nonneg).
    destruct coin eqn:Hcoin.
    + rewrite length_filter_all, Hlen; [lia|].
      intros x Hx%elem_of_range. by rewrite Hf.
    + rewrite length_filter_none; [done|].
      intros x Hx%elem_of_range. by rewrite Hf.
Qed.

Lemma constant_oracle_function_witness :
  exists ob,
    the_object (give_a_constant_oracle 2 (World ∅ (fun _ => 1))) = Some ob
    /\ oracle_function ob 3 = Some true
    /\ Z.of_nat (ones_count ob 2) = 4.
Proof.
  destruct (constant_oracle_function 2 (World ∅ (fun _ => 1)) ltac:(lia))
    as (ob & Hob & Hf & Hcount).
  exists ob. split; [exact Hob|]. split; [|exact Hcount].
  apply (Hf 3 false). lia.
Defined.

(** X2. For [1 <= n <= 63] the balanced oracle is balanced: of the
    [2^n] inputs, exactly [2^(n-1)] make it answer 1. *)
Theorem balanced_oracle_half (n : Z) (w : world) :
  1 <= n <= 63 ->
  exists ob,
    the_object (give_a_balanced_oracle n w) = Some ob
    /\ Z.of_nat (ones_count ob n) = 2 ^ (n - 1).
Proof.
  intros Hn. eexists. split; [by apply balanced_oracle_built|].
  unfold ones_count.
  set (c := parity n (drawn_mask n w)).
  rewrite (length_filter_ext _ (fun x => parity n x = negb c)).
  - pose proof (parity_count_half (Z.to_nat (n - 1)) (negb c)) as Hhalf.
    unfold parity_count in Hhalf.
    replace (Z.of_nat (S (Z.to_nat (n - 1)))) with n in Hhalf by lia.
    rewrite Z2Nat.id in Hhalf by lia. exact Hhalf.
  - intros x Hx%elem_of_range. rewrite balanced_function by lia.
    fold c. destruct (parity n x), c; simpl; split; congruence.
Qed.

Lemma balanced_oracle_half_witness :
  1 <= 3 <= 63
  /\ exists ob,
      the_object (give_a_balanced_oracle 3 (World ∅ (fun _ => 4))) = Some ob
      /\ Z.of_nat (ones_count ob 3) = 4.
Proof.
  split; [lia|].
  apply (balanced_oracle_half 3 (World ∅ (fun _ => 4))). lia.
Defined.

(** X3. For [1 <= n <= 63], on the basis state with inputs [x] and
    ancilla [a], the balanced oracle leaves the inputs as they are (the flips of the masked wires
    are undone) and adds [f x] to the ancilla; run twice, it gives the
    state back. *)
Theorem balanced_oracle_action (n : Z) (w : world) (x : Z) (a : bool) :
  1 <= n <= 63 ->
  0 <= x < 2 ^ n ->
  exists ob f,
    the_object (give_a_balanced_oracle n w) = Some ob
    /\ oracle_function ob x = Some f
    /\ classical_run (unroll (data ob)) (basis_state n x a)
       = Some (basis_state n x (xorb a f))
    /\ classical_run (unroll (data ob)) (basis_state n x (xorb a f))
       = Some (basis_state n x a).
Proof.
  intros Hn Hx. do 2 eexists.
  split; [by apply balanced_oracle_built|].
  split; [apply balanced_function; lia|].
  cbn [data]. rewrite !balanced_on_basis_state by lia.
  split; [done|]. f_equal. f_equal.
  by destruct a, (parity n x), (parity n (drawn_mask n w)).
Qed.

Lemma balanced_oracle_action_witness :
  1 <= 2 <= 63 /\ 0 <= 2 < 2 ^ 2
  /\ exists ob f,
      the_object (give_a_balanced_oracle 2 (World ∅ (fun _ => 0))) = Some ob
      /\ oracle_function ob 2 = Some f
      /\ classical_run (unroll (data ob)) (basis_state 2 2 true)
         = Some (basis_state 2 2 (xorb true f)).
Proof.
  split; [lia|]. split; [lia|].
  destruct (balanced_oracle_action 2 (World ∅ (fun _ => 0)) 2 true
              ltac:(lia) ltac:(lia)) as (ob & f & H1 & H2 & H3 & _).
  exists ob, f. repeat split; assumption.
Defined.

(** ** The store around the builders *)

Lemma oracle_heap_apart h e nm nq nc d :
  builds_apart
    (Ok (oracle_loc h nq nc d, World (oracle_heap h nm nq nc d) (drawn e)))
    (World h e).
Proof.
  set (c := fresh (dom h)).
  set (h1 := <[c := mkQC "circuit" nq nc d]> h).
  set (i := fresh (dom h1)).
  assert (Hc : h !! c = None) by apply not_elem_of_dom, is_fresh.
  assert (Hi : h1 !! i = None) by apply not_elem_of_dom, is_fresh.
  assert (Hic : i <> c).
  { intros Heq. rewrite Heq in Hi. unfold h1 in Hi.
    by rewrite lookup_insert_eq in Hi. }
  assert (Hi' : h !! i = None).
  { unfold h1 in Hi. by rewrite lookup_insert_ne in Hi. }
  exists i, (World (<[i := mkQC nm nq nc d]> h1) (drawn e)).
  cbn [heap entropy]. split; [done|]. split; [done|].
  intros l o Hl.
  rewrite lookup_insert_ne by congruence.
  unfold h1. by rewrite lookup_insert_ne by congruence.
Qed.

Lemma builds_apart_runs r h e nm nq nc d :
  r = Ok (oracle_loc h nq nc d, World (oracle_heap h nm nq nc d) (drawn e)) ->
  builds_apart r (World h e).
Proof. intros ->. apply oracle_heap_apart. Qed.

(** X4. Both synthesizers leave every object of the store as it was
    and return an object that was not in it: the constant one for every
    [n >= 1], the balanced one for [1 <= n <= 63]. *)
Theorem synthesis_frame (n : Z) (w : world) :
  1 <= n ->
  builds_apart (give_a_constant_oracle n w) w
  /\ (n <= 63 -> builds_apart (give_a_balanced_oracle n w) w).
Proof.
  intros Hn. destruct w as [h e]. split.
  - eapply builds_apart_runs.
    apply (give_a_constant_oracle_runs (World h e) n). lia.
  - intros Hmax. eapply builds_apart_runs.
    by apply (give_a_balanced_oracle_runs (World h e) n).
Qed.

Lemma synthesis_frame_witness :
  builds_apart
    (give_a_balanced_oracle 2
       (World {[ 5%positive := mkQC "kept" 1 0 [] ]} (fun _ => 1)))
    (World {[ 5%positive := mkQC "kept" 1 0 [] ]} (fun _ => 1)).
Proof.
  apply (synthesis_frame 2
           (World {[ 5%positive := mkQC "kept" 1 0 [] ]} (fun _ => 1)));
    lia.
Defined.

(** ** When composition fails *)

Lemma index_cases size i w :
  QC.index size i w = Err CircuitError
  \/ exists i', QC.index size i w = Ok (i', w).
Proof.
  unfold QC.index. repeat case_decide; [right|right|left]; eauto.
Qed.

Lemma indices_err size l w :
  Exists (fun i => size <= i) l -> 0 <= size ->
  QC.indices size l w = Err CircuitError.
Proof.
  intros Hbad Hsize. induction Hbad as [i l Hi|i l _ IH]; simpl.
  - apply bind_err. unfold QC.index.
    by rewrite !decide_False by lia.
  - destruct (index_cases size i w) as [Herr|[i' Hok]].
    + by apply bind_err.
    + rewrite (bind_ok _ _ _ _ _ Hok). by apply bind_err.
Qed.

(** X5. [_construct_the_circuit] accepts an oracle exactly when it has
    at least one wire and no more classical bits than input wires;
    otherwise it fails with Qiskit's [CircuitError] (the circuit cannot be
    created, or the oracle cannot be appended to it), and so does
    [simulate], before any run of the backend. *)
Theorem composition_fails (w : world) (oracle_block : loc)
    (ob : QuantumCircuit) (run : QuantumCircuit -> gmap string nat) :
  heap w !! oracle_block = Some ob ->
  0 <= num_clbits ob ->
  (1 <= num_qubits ob /\ num_clbits ob <= num_qubits ob - 1 ->
   exists c w', _construct_the_circuit oracle_block w = Ok (c, w'))
  /\ (~ (1 <= num_qubits ob /\ num_clbits ob <= num_qubits ob - 1) ->
      _construct_the_circuit oracle_block w = Err CircuitError
      /\ simulate run oracle_block w = Err CircuitError).
Proof.
  intros Hob Hnc. split.
  { intros [Hnq Hle]. do 2 eexists.
    apply (construct_the_circuit_runs w oracle_block ob); (done || lia). }
  intros Hbad.
  assert (Hfail : _construct_the_circuit oracle_block w = Err CircuitError);
    [|split; [done|]; unfold simulate; by apply bind_err].
  unfold _construct_the_circuit.
  assert (Hload : QC.load oracle_block w = Ok (ob, w)).
  { unfold QC.load. by rewrite Hob. }
  rewrite (bind_ok _ _ _ _ _ Hload).
  set (n := num_qubits ob - 1).
  destruct (decide (1 <= num_qubits ob)) as [Hnq|Hnq].
  2:{ apply bind_err. unfold QC.new. by rewrite decide_False by lia. }
  assert (Hmany : n < num_clbits ob) by lia.
  set (c := fresh (dom (heap w))).
  assert (Hc : heap w !! c = None) by apply not_elem_of_dom, is_fresh.
  assert (Hne : c <> oracle_block) by congruence.
  assert (Hnew : QC.new (n + 1) n w
                 = Ok (c, at_c (heap w) (entropy w) c "circuit" (n + 1) n [])).
  { unfold QC.new. rewrite decide_True by lia. done. }
  rewrite (bind_ok _ _ _ _ _ Hnew).
  erewrite bind_ok;
    [|apply (for_each_at_c _ _ _ _ _ _ _ _ (fun q => [Prim (GH q)]));
      intros q d' Hq%elem_of_range; apply h_at_c; lia].
  erewrite bind_ok; [|apply x_at_c; lia].
  erewrite bind_ok; [|apply h_at_c; lia].
  erewrite bind_ok; [|apply barrier_at_c].
  apply bind_err. unfold QC.append.
  rewrite (bind_ok _ _ _ _ _ (load_at_c _ _ _ _ _ _ _)).
  match goal with
  | |- bind (QC.load oracle_block) _ ?w1 = _ =>
      assert (Hl : QC.load oracle_block w1 = Ok (ob, w1))
  end.
  { unfold QC.load, at_c; simpl. by rewrite lookup_insert_ne, Hob. }
  rewrite (bind_ok _ _ _ _ _ Hl).
  rewrite decide_True by (rewrite !length_range; lia).
  simpl.
  erewrite bind_ok; [|apply indices_ok;
    replace (n + 1) with (num_qubits ob) by lia; apply Forall_range].
  apply bind_err. apply indices_err; [|lia].
  apply Exists_exists. exists (num_clbits ob - 1).
  split; [|lia]. apply elem_of_range. lia.
Qed.

Lemma composition_fails_witness :
  _construct_the_circuit 1%positive
    (World {[ 1%positive := mkQC "wide" 2 2 [] ]} (fun _ => 0))
  = Err CircuitError
  /\ simulate ideal_run 1%positive
       (World {[ 1%positive := mkQC "wide" 2 2 [] ]} (fun _ => 0))
     = Err CircuitError.
Proof.
  apply (composition_fails
           (World {[ 1%positive := mkQC "wide" 2 2 [] ]} (fun _ => 0))
           1%positive (mkQC "wide" 2 2 []) ideal_run);
    [reflexivity|simpl; lia|simpl; lia].
Defined.

(** ** The single key of an ideal run *)

Lemma wire_run_balanced_minus (N : nat) m :
  exists ins,
    wire_run (unroll (balanced_data (Z.of_nat N) m))
             (replicate N (1, 1) ++ [(1, -1)])
    = Some (ins ++ [(1, -1)])
    /\ length ins = N
    /\ Forall (fun w => w.1 + w.2 = 0 /\ w.1 <> 0) ins.
Proof.
  rewrite unroll_balanced_data, wire_run_app.
  destruct (wire_run_flips (fun w => w = (1, 1))
              (filter (fun i => Z.testbit m i = true) (range (Z.of_nat N)))
              (replicate N (1, 1)) (1, -1)) as (ins1 & -> & Hlen1 & Hins1).
  { by intros w ->. }
  { rewrite length_replicate. apply Forall_mask. }
  { by apply Forall_replicate. }
  rewrite length_replicate in Hlen1.
  pose proof (wire_run_cx_layer ins1 (1, -1) eq_refl) as Hcx.
  rewrite Hlen1 in Hcx. rewrite wire_run_app, Hcx.
  destruct (wire_run_flips (fun w => w.1 + w.2 = 0 /\ w.1 <> 0)
              (filter (fun i => Z.testbit m i = true) (range (Z.of_nat N)))
              (kick <$> ins1) (1, -1)) as (ins2 & -> & Hlen2 & Hins2).
  { intros w [Hw Hw1]. unfold swap; simpl. lia. }
  { rewrite length_fmap, Hlen1. apply Forall_mask. }
  { apply Forall_fmap. eapply Forall_impl; [exact Hins1|]. by intros w ->. }
  exists ins2. rewrite length_fmap in Hlen2. split; [done|]. split; [lia|done].
Qed.

Lemma product_from_ne k ws i :
  (forall (j : nat) w, ws !! j = Some w ->
     sel w (Z.testbit i (k + Z.of_nat j)) <> 0) ->
  product_from k ws i <> 0.
Proof.
  revert k. induction ws as [|w ws IH]; intros k Hsel; simpl; [done|].
  apply Z.neq_mul_0. split.
  - specialize (Hsel 0%nat w eq_refl). by rewrite Z.add_0_r in Hsel.
  - apply IH. intros j w' Hj. specialize (Hsel (S j) w' Hj).
    by replace (k + 1 + Z.of_nat j) with (k + Z.of_nat (S j)) by lia.
Qed.

(** A wire whose amplitude on 0 is zero is read as 1 and nothing else,
    and reading it changes nothing. *)
Lemma measure_sure_one nq ws psi cr q c w i0 :
  same_on nq psi (product_state ws) ->
  0 <= q ->
  ws !! Z.to_nat q = Some w -> w.1 = 0 ->
  0 <= i0 < 2 ^ nq -> Z.testbit i0 q = true -> product_state ws i0 <> 0 ->
  exists psi',
    exec_gate nq (GMeasure q c) (psi, cr) = [(psi', <[Z.to_nat c := true]> cr)]
    /\ same_on nq psi' (product_state ws).
Proof.
  intros Hsame Hq Hw Hw1 Hi0 Hbit0 Hnz.
  assert (Hzero : forall i, Z.testbit i q = false -> product_state ws i = 0).
  { intros i Hbit. rewrite (product_state_factor ws q w) by done.
    rewrite Hbit. simpl. rewrite Hw1. lia. }
  exists (collapse q true psi). split.
  - cbn [exec_gate]. unfold measure_as. cbn [fst snd].
    rewrite decide_True.
    + rewrite decide_False; [done|].
      rewrite weight_zero. intros H. apply Hnz.
      rewrite <- Hsame by done. by apply H.
    + apply weight_zero. intros i Hi Hbit. rewrite Hsame by done.
      by apply Hzero.
  - intros i Hi. unfold collapse. case_decide as Hbit; [by apply Hsame|].
    symmetry. apply Hzero. by destruct (Z.testbit i q).
Qed.

Lemma insert_true_next (k r : nat) :
  <[k := true]> (replicate k true ++ replicate (S r) false)
  = replicate (S k) true ++ replicate r false.
Proof.
  rewrite (replicate_S_end k true), <- app_assoc. cbn [replicate app].
  pose proof (insert_app_r (replicate k true) (false :: replicate r false)
                0 true) as Hins.
  rewrite length_replicate, Nat.add_0_r in Hins. exact Hins.
Qed.

Lemma measures_all_one nq ws psi i0 (n k : nat) :
  same_on nq psi (product_state ws) ->
  0 <= i0 < 2 ^ nq -> product_state ws i0 <> 0 ->
  (forall j : nat, (j < n)%nat ->
     Z.testbit i0 (Z.of_nat j) = true
     /\ exists w, ws !! j = Some w /\ w.1 = 0) ->
  (k <= n)%nat ->
  exists psi',
    exec nq ((fun q => GMeasure q q) <$> range (Z.of_nat k))
         [(psi, replicate n false)]
    = [(psi', replicate k true ++ replicate (n - k) false)]
    /\ same_on nq psi' (product_state ws).
Proof.
  intros Hsame Hi0 Hnz Hwires. induction k as [|k IH]; intros Hk.
  - exists psi. by rewrite Nat.sub_0_r.
  - destruct IH as (psi1 & Hexec & Hsame1); [lia|].
    rewrite range_snoc, fmap_app, exec_app, Hexec.
    destruct (Hwires k ltac:(lia)) as (Hbit & w & Hw & Hw1).
    destruct (measure_sure_one nq ws psi1
                (replicate k true ++ replicate (n - k) false)
                (Z.of_nat k) (Z.of_nat k) w i0) as (psi2 & Hm & Hsame2);
      try done; [lia|by rewrite Nat2Z.id|].
    exists psi2. split; [|done].
    unfold exec. cbn [fmap list_fmap foldl flat_map].
    rewrite Hm, app_nil_r, Nat2Z.id.
    replace (n - k)%nat with (S (n - S k)) by lia.
    by rewrite insert_true_next.
Qed.

Lemma key_of_ones (n : nat) : key_of (replicate n true) = str_mul "1" (Z.of_nat n).
Proof.
  unfold key_of, str_mul. rewrite fmap_replicate, reverse_replicate, Nat2Z.id.
  induction n as [|n IH]; [done|].
  cbn [replicate string_of_list_ascii Nat.iter]. by rewrite IH.
Qed.

Lemma basis_ones n nq : 0 <= n < nq -> 0 <= Z.ones n < 2 ^ nq.
Proof.
  intros Hn. rewrite Z.ones_equiv.
  assert (0 < 2 ^ n) by (apply Z.pow_pos_nonneg; lia).
  assert (2 ^ n < 2 ^ nq) by (apply Z.pow_lt_mono_r; lia). lia.
Qed.

Lemma dj_outcomes_balanced_exact (N : nat) og ins :
  wire_run og (replicate N (1, 1) ++ [(1, -1)]) = Some (ins ++ [(1, -1)]) ->
  length ins = N ->
  Forall (fun w => w.1 + w.2 = 0 /\ w.1 <> 0) ins ->
  (fun cf : config => key_of cf.2)
    <$> exec (Z.of_nat N + 1) (dj_gates (Z.of_nat N) og)
             [(init_state, replicate N false)]
  = [str_mul "1" (Z.of_nat N)].
Proof.
  intros Hog Hlen Hins.
  destruct (dj_state N og ins (1, -1) (replicate N false) Hog Hlen)
    as (psi & -> & Hsame).
  destruct (measures_all_one (Z.of_nat N + 1)
              ((hadamard <$> ins) ++ [(1, -1)]) psi
              (Z.ones (Z.of_nat N)) N N) as (psi' & -> & _).
  - done.
  - apply basis_ones. lia.
  - apply product_from_ne. intros j w Hj. rewrite Z.add_0_l.
    destruct (decide (j < N)%nat) as [Hlt|Hge].
    + rewrite Z.ones_spec_low by lia.
      rewrite lookup_app_l in Hj by (rewrite length_fmap; lia).
      rewrite list_lookup_fmap in Hj.
      destruct (ins !! j) as [w0|] eqn:Hw0; [|done].
      injection Hj as <-.
      destruct (Forall_lookup_1 _ _ _ _ Hins Hw0) as [Hsum Hne].
      unfold hadamard; simpl. lia.
    + assert (j = N).
      { apply lookup_lt_Some in Hj.
        rewrite length_app, length_fmap in Hj. simpl in Hj. lia. }
      subst j. rewrite Z.ones_spec_high by lia.
      rewrite <- Hlen in Hj at 1. rewrite <- (length_fmap hadamard) in Hj.
      rewrite list_lookup_middle in Hj by done. by injection Hj as <-.
  - intros j Hj. split; [apply Z.ones_spec_low; lia|].
    destruct (lookup_lt_is_Some_2 ins j) as [w0 Hw0]; [lia|].
    exists (hadamard w0). split.
    + rewrite lookup_app_l by (rewrite length_fmap; lia).
      by rewrite list_lookup_fmap, Hw0.
    + destruct (Forall_lookup_1 _ _ _ _ Hins Hw0) as [Hsum _].
      unfold hadamard; simpl. lia.
  - done.
  - rewrite Nat.sub_diag, app_nil_r. simpl. by rewrite key_of_ones.
Qed.

Lemma composed_after_build (build : M loc) w h' e' nm nq nc d :
  build w = Ok (oracle_loc (heap w) nq nc d,
                World (oracle_heap (heap w) nm nq nc d) e') ->
  h' = oracle_heap (heap w) nm nq nc d ->
  1 <= nq -> 0 <= nc <= nq - 1 ->
  the_object ((oracle <- build ;; _construct_the_circuit oracle) w)
  = Some (dj_circuit (mkQC nm nq nc d)).
Proof.
  intros Hbuild -> Hnq Hnc. rewrite (bind_ok _ _ _ _ _ Hbuild).
  rewrite (construct_the_circuit_runs _ _ (mkQC nm nq nc d));
    [|apply oracle_heap_lookup|done|done].
  unfold the_object. cbn [heap]. apply lookup_insert_eq.
Qed.

Lemma single_key run c key :
  ideal run -> ideal_outcomes c = [key] -> dom (run c) = {[ key ]}.
Proof.
  intros Hideal Hout. destruct (Hideal c) as [Hkeys Hsome].
  rewrite Hout in Hkeys, Hsome.
  assert (Hall : forall k, k ∈ dom (run c) -> k = key).
  { intros k Hk%Hkeys. by apply list_elem_of_singleton in Hk. }
  apply set_eq. intros k. rewrite elem_of_singleton. split; [apply Hall|].
  intros ->.
  destruct (decide (dom (run c) = ∅)) as [Hempty|Hne].
  - apply dom_empty_iff_L in Hempty. by destruct Hsome.
  - apply set_choose_L in Hne as [k Hk]. by rewrite <- (Hall k Hk).
Qed.

Lemma constant_circuit_outcomes n coin :
  1 <= n ->
  ideal_outcomes (dj_circuit (mkQC "ConstantOracle" (n + 1) 0
                                   (constant_data n coin)))
  = [str_mul "0" n].
Proof.
  intros Hn. rewrite (ideal_outcomes_dj _ (Z.to_nat n)).
  - cbn [data]. rewrite Z2Nat.id by lia.
    destruct (wire_run_constant (Z.to_nat n) coin) as (anc & Hrun & Hanc).
    rewrite Z2Nat.id in Hrun by lia.
    pose proof (dj_outcomes_constant (Z.to_nat n) _ anc Hrun Hanc) as Hout.
    simpl in Hout. by rewrite Z2Nat.id in Hout by lia.
  - simpl. lia.
  - apply wf_constant_data. lia.
Qed.

Lemma balanced_circuit_outcomes n m :
  1 <= n ->
  ideal_outcomes (dj_circuit (mkQC "BalancedOracle" (n + 1) n
                                   (balanced_data n m)))
  = [str_mul "1" n].
Proof.
  intros Hn. rewrite (ideal_outcomes_dj _ (Z.to_nat n)).
  - cbn [data]. rewrite Z2Nat.id by lia.
    destruct (wire_run_balanced_minus (Z.to_nat n) m)
      as (ins & Hrun & Hlen & Hins).
    rewrite Z2Nat.id in Hrun by lia.
    pose proof (dj_outcomes_balanced_exact (Z.to_nat n) _ ins Hrun Hlen Hins)
      as Hout.
    by rewrite Z2Nat.id in Hout by lia.
  - simpl. lia.
  - apply wf_balanced_data.
Qed.

(** X6. For every [n >= 1] and both values of the coin, the circuit
    composed around the constant oracle has one possible key under ideal
    execution, the string of [n] zeros: the counts of an ideal backend hold
    that key and no other. *)
Theorem constant_circuit_key (n : Z) (w : world) :
  1 <= n ->
  exists circ,
    the_object ((oracle <- give_a_constant_oracle n ;;
                 _construct_the_circuit oracle) w) = Some circ
    /\ ideal_outcomes circ = [str_mul "0" n]
    /\ forall run, ideal run -> dom (run circ) = {[ str_mul "0" n ]}.
Proof.
  intros Hn. eexists. split.
  - eapply composed_after_build;
      [apply give_a_constant_oracle_runs; lia|reflexivity|lia|lia].
  - split; [by apply constant_circuit_outcomes|].
    intros run Hideal. apply single_key; [done|].
    by apply constant_circuit_outcomes.
Qed.

Lemma constant_circuit_key_witness :
  1 <= 2
  /\ exists circ,
      the_object ((oracle <- give_a_constant_oracle 2 ;;
                   _construct_the_circuit oracle) (World ∅ (fun _ => 1)))
      = Some circ
      /\ ideal_outcomes circ = ["00"].
Proof.
  split; [lia|].
  destruct (constant_circuit_key 2 (World ∅ (fun _ => 1)) ltac:(lia))
    as (circ & Hc & Hout & _).
  exists circ. split; [exact Hc|exact Hout].
Defined.

(** X7. For [1 <= n <= 63] and every mask drawn, the circuit composed
    around the balanced oracle has one possible key under ideal execution,
    the string of [n] ones: the counts of an ideal backend hold that key
    and no other. *)
Theorem balanced_circuit_key (n : Z) (w : world) :
  1 <= n <= 63 ->
  exists circ,
    the_object ((oracle <- give_a_balanced_oracle n ;;
                 _construct_the_circuit oracle) w) = Some circ
    /\ ideal_outcomes circ = [str_mul "1" n]
    /\ forall run, ideal run -> dom (run circ) = {[ str_mul "1" n ]}.
Proof.
  intros Hn. eexists. split.
  - eapply composed_after_build;
      [by apply give_a_balanced_oracle_runs|reflexivity|lia|lia].
  - split; [apply balanced_circuit_outcomes; lia|].
    intros run Hideal. apply single_key; [done|].
    apply balanced_circuit_outcomes. lia.
Qed.

Lemma balanced_circuit_key_witness :
  1 <= 3 <= 63
  /\ exists circ,
      the_object ((oracle <- give_a_balanced_oracle 3 ;;
                   _construct_the_circuit oracle) (World ∅ (fun _ => 4)))
      = Some circ
      /\ ideal_outcomes circ = ["111"].
Proof.
  split; [lia|].
  destruct (balanced_circuit_key 3 (World ∅ (fun _ => 4)) ltac:(lia))
    as (circ & Hc & Hout & _).
  exists circ. split; [exact Hc|exact Hout].
Defined.

(** ** The command line *)

Lemma simulate_constant_oracle run n w :
  1 <= n -> ideal run ->
  exists w',
    (block <- give_a_constant_oracle n ;; simulate run block) w
    = Ok ({[ "result" := "Constant" ]}, w').
Proof.
  intros Hn Hideal.
  rewrite (bind_ok _ _ _ _ _ (give_a_constant_oracle_runs w n ltac:(lia))).
  rewrite (simulate_runs run _ _
             (mkQC "ConstantOracle" (n + 1) 0
                   (constant_data n (entropy w 0%nat `mod` 2))));
    [|apply oracle_heap_lookup|simpl; lia|simpl; lia].
  eexists. do 2 f_equal.
  apply (verdict_constant run
           (mkQC "ConstantOracle" (n + 1) 0
                 (constant_data n (entropy w 0%nat `mod` 2)))
           n Hideal eq_refl).
  by apply constant_circuit_outcomes.
Qed.

Lemma simulate_balanced_oracle run n w :
  1 <= n <= 63 -> ideal run ->
  exists w',
    (block <- give_a_balanced_oracle n ;; simulate run block) w
    = Ok ({[ "result" := "Balanced" ]}, w').
Proof.
  intros Hn Hideal.
  rewrite (bind_ok _ _ _ _ _ (give_a_balanced_oracle_runs w n Hn)).
  rewrite (simulate_runs run _ _
             (mkQC "BalancedOracle" (n + 1) n
                   (balanced_data n (1 + entropy w 0%nat `mod` (2 ^ n - 1)))));
    [|apply oracle_heap_lookup|simpl; lia|simpl; lia].
  eexists. do 2 f_equal.
  apply (verdict_balanced run
           (mkQC "BalancedOracle" (n + 1) n
                 (balanced_data n (1 + entropy w 0%nat `mod` (2 ^ n - 1))))
           n Hideal eq_refl).
  rewrite balanced_circuit_outcomes by lia.
  constructor; [|constructor].
  rewrite <- (Z2Nat.id n) by lia.
  rewrite <- key_of_ones, <- key_of_zeros. intros Heq%key_of_inj.
  replace (Z.to_nat n) with (S (Z.to_nat (n - 1))) in Heq by lia.
  discriminate Heq.
Qed.

Lemma tokens_apart t : constant_token t -> balanced_token t -> False.
Proof. intros [H|H] [H'|H']; rewrite H in H'; discriminate H'. Qed.

(** X8. The script, for [n >= 1] and an ideal backend: a token that
    lowers to "constant" or "c" prints the banner and "Result: Constant";
    one that lowers to "balanced" or "b" prints, for [n <= 63], the banner
    and "Result: Balanced"; both end normally.  Any other token prints
    "Invalid oracle type." after the banner and exits with status 1. *)
Theorem script_behaviour (run : QuantumCircuit -> gmap string nat)
    (n : Z) (t : string) (w : world) :
  1 <= n ->
  ideal run ->
  (constant_token t ->
   main run n t w = (banner ++ ["Result: Constant"], Finished))
  /\ (balanced_token t -> n <= 63 ->
      main run n t w = (banner ++ ["Result: Balanced"], Finished))
  /\ (~ constant_token t -> ~ balanced_token t ->
      main run n t w = (banner ++ ["Invalid oracle type."], Exited 1)).
Proof.
  intros Hn Hideal. unfold main, constant_token, balanced_token.
  split; [|split].
  - intros Hc. rewrite decide_True by done.
    destruct (simulate_constant_oracle run n w Hn Hideal) as (w' & ->).
    by rewrite lookup_singleton_eq.
  - intros Hb Hmax.
    rewrite decide_False by (intros Hc; by apply (tokens_apart t)).
    rewrite decide_True by done.
    destruct (simulate_balanced_oracle run n w (conj Hn Hmax) Hideal)
      as (w' & ->).
    by rewrite lookup_singleton_eq.
  - intros Hc Hb. by rewrite !decide_False.
Qed.

Lemma script_behaviour_witness :
  1 <= 2 /\ ideal ideal_run /\ balanced_token "BaLaNcEd"
  /\ main ideal_run 2 "BaLaNcEd" (World ∅ (fun _ => 1))
     = (banner ++ ["Result: Balanced"], Finished).
Proof.
  split; [lia|]. split; [apply ideal_run_ideal|].
  split; [left; reflexivity|].
  apply (script_behaviour ideal_run 2 "BaLaNcEd" (World ∅ (fun _ => 1)));
    [lia|apply ideal_run_ideal|left; reflexivity|lia].
Defined.

(** X9. The script with a token for the balanced oracle and a number of
    inputs below 1 ends by an exception nobody catches, after the banner
    and without a result line, whatever the backend: the [ValueError] of
    the draw, or the [OverflowError] of [2 ** n] when [n] is so far below
    zero that it does not convert to a float. *)
Theorem script_below_one (run : QuantumCircuit -> gmap string nat)
    (n : Z) (t : string) (w : world) :
  n < 1 ->
  balanced_token t ->
  main run n t w
  = (banner,
     Uncaught (if decide (- float_limit < n) then ValueError
               else OverflowError)).
Proof.
  intros Hn Hb. unfold main.
  rewrite decide_False by (intros Hc; by apply (tokens_apart t)).
  rewrite decide_True by done.
  assert (Hdraw : give_a_balanced_oracle n w
                  = Err (if decide (- float_limit < n) then ValueError
                         else OverflowError)).
  { unfold give_a_balanced_oracle. case_decide as Hfloat.
    - destruct (decide (n = 0)) as [->|Hneg].
      + rewrite (bind_ok _ _ _ 1 w) by done.
        apply bind_err. by apply randint_fails.
      + rewrite (bind_ok _ _ _ 0 w)
          by (unfold lift; by rewrite pow2_negative by lia).
        apply bind_err. by apply randint_fails.
    - apply bind_err. unfold lift. by rewrite pow2_overflow by lia. }
  by rewrite (bind_err _ _ _ _ Hdraw).
Qed.

Lemma script_below_one_witness :
  0 < 1 /\ balanced_token "B"
  /\ main ideal_run 0 "B" (World ∅ (fun _ => 3)) = (banner, Uncaught ValueError).
Proof.
  split; [lia|]. split; [right; reflexivity|].
  apply (script_below_one ideal_run 0 "B" (World ∅ (fun _ => 3)));
    [lia|right; reflexivity].
Defined.
